(** * youtube-metadata-extractor: a shallow embedding of [src/index.ts]

    The program synchronises a local CSV catalogue of a channel's videos with
    the YouTube Data API.  This development embeds the four functions of
    [index.ts] ([getNewVideos], [updateExistingVideos], [readCsvFile] and
    [main], with the merge and the title clean-up that [main] contains) and
    proves properties of them.

    Conventions.
    - JavaScript strings that are only compared or passed along (identifiers,
      dates, durations, page tokens) are [string]; titles, whose characters the
      program inspects, are lists of UTF-16 code units ([list N]).
    - [undefined]/[null]/missing properties are [None].
    - What the program imports from outside its own source (the [Number] and
      [Date] built-ins, the [he] entity decoder, the CSV parser and writer, the
      API client) is a field of a type class: theorems hold for every
      implementation, examples run on small concrete ones.
    - Asynchronous calls are sequential here ([await] on every call), so a
      computation is a function from the state of the outside world to an
      outcome, a new world and the trace of external calls it made.
    - Console output is left out. *)

From stdpp Require Import base option list gmap strings sorting pretty.
From Stdlib Require Import Ascii NArith ZArith Lia.

(** ** Data model *)

(** A string of UTF-16 code units, for titles. *)
Abbreviation jsstring := (list N).

(** [utf16 s] is the JavaScript string with the same ASCII characters as [s]. *)
Fixpoint utf16 (s : string) : jsstring :=
  match s with
  | EmptyString => []
  | String c r => N_of_ascii c :: utf16 r
  end.

(** The values of the fields that the source declares as [number].  The
    declaration is not checked when the program runs: the records that
    csv-parse returns hold strings there, so an implementation that is to
    describe a run from a saved file has more than the numbers in this type
    (see [Sample.count_value]). *)
Class JSNumbers := { JSNumber : Type }.

(** The built-ins and the library function that the program computes with. *)
Class JSRuntime `{JSNumbers} := {
  (** [Number(v)] for [v] a string or [undefined] *)
  Number_ : option string → JSNumber;
  (** truthiness of a number: false on [NaN], [0] and [-0] *)
  number_truthy : JSNumber → bool;
  (** the literal [0] *)
  number_zero : JSNumber;
  (** [new Date(s).getTime()]; [None] is [NaN] (an invalid date) *)
  Date_getTime : string → option Z;
  (** [he.decode] *)
  he_decode : jsstring → jsstring
}.

Section Model.
Context {nums : JSNumbers} {rt : JSRuntime}.

(** [interface VideoRecord] (lines 15-22). *)
Record VideoRecord := mkVideoRecord {
  ID : string;
  Title : jsstring;
  Published_At : string;
  Duration : string;
  ViewCount : option JSNumber;
  LikeCount : option JSNumber
}.

(** The parts of the API's [Schema$Video] that the program reads. *)
Record VideoContentDetails := { duration : option string }.
Record VideoStatistics := { viewCount : option string; likeCount : option string }.
Record Video := {
  video_id : option string;
  contentDetails : option VideoContentDetails;
  statistics : option VideoStatistics
}.

(** The parts of the API's [Schema$SearchResult] that the program reads. *)
Record ResourceId := { videoId : option string }.
Record SearchResultSnippet := { title : option jsstring; publishedAt : option string }.
Record SearchResult := {
  result_id : option ResourceId;
  snippet : option SearchResultSnippet
}.

Record SearchListResponse := {
  search_items : option (list SearchResult);
  nextPageToken : option string
}.

Record VideoListResponse := { video_items : option (list Video) }.

(** ** JavaScript idioms *)

(** [s || undefined] and the test [if (s)] on an optional string: the empty
    string is falsy. *)
Definition truthy_string (s : option string) : option string :=
  match s with
  | Some EmptyString => None
  | other => other
  end.

(** [Number(v) || 0]. *)
Definition Number_or_0 (v : option string) : JSNumber :=
  let n := Number_ v in
  if number_truthy n then n else number_zero.

(** [videos.find(v => v.ID === item.id)]: the position of the first record
    whose [ID] is [item.id]; nothing is found when [item.id] is missing. *)
Definition find_by_id (videos : list VideoRecord) (item_id : option string) : option nat :=
  i ← item_id; fst <$> list_find (λ v, ID v = i) videos.

(** ** The two merge-by-identifier steps *)

(** Lines 70-77, the body of [forEach] in [getNewVideos]:
    [if (video && item.contentDetails) { video.Duration = ...; ... }]. *)
Definition hydrate_item (newVideos : list VideoRecord) (item : Video) : list VideoRecord :=
  match find_by_id newVideos (video_id item), contentDetails item with
  | Some k, Some cd =>
      alter (λ video,
        {| ID := ID video; Title := Title video; Published_At := Published_At video;
           Duration := default EmptyString (duration cd);
           ViewCount := Some (Number_or_0 (statistics item ≫= viewCount));
           LikeCount := Some (Number_or_0 (statistics item ≫= likeCount)) |}) k newVideos
  | _, _ => newVideos
  end.

(** Lines 100-106, the body of [forEach] in [updateExistingVideos]:
    [if (video && item.statistics) { video.ViewCount = ...; ... }]. *)
Definition refresh_item (videos : list VideoRecord) (item : Video) : list VideoRecord :=
  match find_by_id videos (video_id item), statistics item with
  | Some k, Some st =>
      alter (λ video,
        {| ID := ID video; Title := Title video; Published_At := Published_At video;
           Duration := Duration video;
           ViewCount := Some (Number_or_0 (viewCount st));
           LikeCount := Some (Number_or_0 (likeCount st)) |}) k videos
  | _, _ => videos
  end.

(** [response.data.items?.forEach(...)]. *)
Definition forEach_item (step : list VideoRecord → Video → list VideoRecord)
    (response : VideoListResponse) (videos : list VideoRecord) : list VideoRecord :=
  foldl step videos (default [] (video_items response)).

(** ** Regular expressions and [String.prototype.replace]

    The two patterns of lines 172-173 are built from character sets, a greedy
    [+] on a character set, concatenation and a capturing group. *)

Inductive charset :=
  | OneOf (cs : list N)       (* [abc], or a literal character *)
  | NoneOf (cs : list N).     (* [^abc] *)

Inductive regex :=
  | Atom (p : charset)
  | AtomPlus (p : charset)
  | Seq (r1 r2 : regex)
  | Group (r : regex).

Definition in_charset (p : charset) (c : N) : bool :=
  match p with
  | OneOf cs => bool_decide (c ∈ cs)
  | NoneOf cs => bool_decide (c ∉ cs)
  end.

(** Greedy [p+] followed by the continuation [k]: the longest run is tried
    first, then shorter ones. *)
Fixpoint match_plus {X} (p : N → bool) (s : jsstring) (k : jsstring → option X) : option X :=
  match s with
  | c :: s' =>
      if p c then
        match match_plus p s' k with
        | Some x => Some x
        | None => k s'
        end
      else None
  | [] => None
  end.

(** Backtracking matcher: [k] receives the rest of the input and the texts
    captured so far. *)
Fixpoint rmatch {X} (r : regex) (s : jsstring) (caps : list jsstring)
    (k : jsstring → list jsstring → option X) : option X :=
  match r with
  | Atom p =>
      match s with
      | c :: s' => if in_charset p c then k s' caps else None
      | [] => None
      end
  | AtomPlus p => match_plus (in_charset p) s (λ s', k s' caps)
  | Seq r1 r2 => rmatch r1 s caps (λ s' caps', rmatch r2 s' caps' k)
  | Group r1 =>
      rmatch r1 s caps (λ s' caps', k s' (caps' ++ [take (length s - length s') s]))
  end.

(** A match of [r] at the start of [s]: the rest of the input after the match
    and the captured texts. *)
Definition exec (r : regex) (s : jsstring) : option (jsstring * list jsstring) :=
  rmatch r s [] (λ rest caps, Some (rest, caps)).

(** A replacement string: literal text and [$n]. *)
Inductive piece :=
  | Lit (text : jsstring)
  | Capture (n : nat).

Definition expand (template : list piece) (caps : list jsstring) : jsstring :=
  mjoin ((λ p, match p with
               | Lit text => text
               | Capture n => default [] (caps !! pred n)
               end) <$> template).

(** [s.replace(/r/g, template)]: matches are looked for from left to right and
    do not overlap; [skip] counts the characters of the last match that are
    still to be passed over.  A [regex] consumes at least one character, so
    there are no empty matches to deal with. *)
Fixpoint replace_all (r : regex) (template : list piece) (skip : nat) (s : jsstring)
    : jsstring :=
  match s with
  | [] => []
  | c :: s' =>
      match skip with
      | S n => replace_all r template n s'
      | 0 =>
          match exec r s with
          | Some (rest, caps) =>
              expand template caps
                ++ replace_all r template (pred (length s - length rest)) s'
          | None => c :: replace_all r template 0 s'
          end
      end
  end.

Definition replace (r : regex) (template : list piece) (s : jsstring) : jsstring :=
  replace_all r template 0 s.

(** Code units. *)
Definition DQUOTE : N := 34.        (* U+0022 *)
Definition APOSTROPHE : N := 39.    (* U+0027 *)
Definition LEFT_SQUOTE : N := 8216. (* U+2018 *)
Definition RIGHT_SQUOTE : N := 8217. (* U+2019 *)

(** [/[\u2018\u2019]/g] and its replacement ['] (line 172). *)
Definition curly_quote_re : regex := Atom (OneOf [LEFT_SQUOTE; RIGHT_SQUOTE]).
Definition curly_quote_by : list piece := [Lit [APOSTROPHE]].

(** The pattern of line 173, written here with Q for the double quote
    character: [/Q([^Q]+)Q/g], and its replacement ['$1']. *)
Definition double_quoted_re : regex :=
  Seq (Atom (OneOf [DQUOTE])) (Seq (Group (AtomPlus (NoneOf [DQUOTE]))) (Atom (OneOf [DQUOTE]))).
Definition double_quoted_by : list piece := [Lit [APOSTROPHE]; Capture 1; Lit [APOSTROPHE]].

(** Lines 171-173, the expression assigned to [Title]. *)
Definition normalizeTitle (title : jsstring) : jsstring :=
  replace double_quoted_re double_quoted_by
    (replace curly_quote_re curly_quote_by
      (he_decode title)).

(** Lines 169-174, [allVideos.map(video => ({...video, Title: ...}))]. *)
Definition processedVideos (allVideos : list VideoRecord) : list VideoRecord :=
  (λ video,
     {| ID := ID video; Title := normalizeTitle (Title video);
        Published_At := Published_At video; Duration := Duration video;
        ViewCount := ViewCount video; LikeCount := LikeCount video |}) <$> allVideos.

(** The run of characters before the next double quote, and what follows it. *)
Fixpoint unquoted_prefix (s : jsstring) : jsstring :=
  match s with
  | [] => []
  | c :: s' => if decide (c = DQUOTE) then [] else c :: unquoted_prefix s'
  end.

Fixpoint after_unquoted (s : jsstring) : jsstring :=
  match s with
  | [] => []
  | c :: s' => if decide (c = DQUOTE) then s else after_unquoted s'
  end.

(** *** Title normalisation in one pass

    Written independently of the regular expressions, as one pass over the
    characters.  The rewriting of double-quoted text comes in two readings:
    [requote_as_claimed] takes every text between an opening double quote
    and the next double quote, the empty text included;
    [requote_nonempty] takes a text only when it is not empty. *)

Definition straighten (c : N) : N :=
  if decide (c = LEFT_SQUOTE ∨ c = RIGHT_SQUOTE) then APOSTROPHE else c.

(** Replace every curly single quote by the ASCII apostrophe. *)
Definition spec_straighten (s : jsstring) : jsstring := straighten <$> s.

(** Rewrite every text enclosed in double quotes so that the two quotes
    become apostrophes around the same text: a double quote opens, the next
    one closes.  [requote_as_claimed_open inner s]: an opening double quote
    and then [inner] have been read, [s] is still to come; a quote that is
    never closed stays. *)
Fixpoint requote_as_claimed (s : jsstring) : jsstring :=
  match s with
  | [] => []
  | c :: s' =>
      if decide (c = DQUOTE) then requote_as_claimed_open [] s'
      else c :: requote_as_claimed s'
  end
with requote_as_claimed_open (inner : jsstring) (s : jsstring) : jsstring :=
  match s with
  | [] => DQUOTE :: inner
  | c :: s' =>
      if decide (c = DQUOTE) then APOSTROPHE :: inner ++ APOSTROPHE :: requote_as_claimed s'
      else requote_as_claimed_open (inner ++ [c]) s'
  end.

Definition claimed_normalize (title : jsstring) : jsstring :=
  requote_as_claimed (spec_straighten (he_decode title)).

(** Rewrite a double-quoted [inner] as ['inner'] for every non-empty [inner]
    without double quote; a double quote that is directly followed by another
    one stays, and the second one is read as an opening quote in its turn.
    [requote_nonempty_open inner s]: an opening double quote and then [inner]
    have been read, [s] is still to come. *)
Fixpoint requote_nonempty (s : jsstring) : jsstring :=
  match s with
  | [] => []
  | c :: s' =>
      if decide (c = DQUOTE) then requote_nonempty_open [] s'
      else c :: requote_nonempty s'
  end
with requote_nonempty_open (inner : jsstring) (s : jsstring) : jsstring :=
  match s with
  | [] => DQUOTE :: inner
  | c :: s' =>
      if decide (c = DQUOTE) then
        match inner with
        | [] => DQUOTE :: requote_nonempty_open [] s'
        | _ => APOSTROPHE :: inner ++ APOSTROPHE :: requote_nonempty s'
        end
      else requote_nonempty_open (inner ++ [c]) s'
  end.

Definition normalize_one_pass (title : jsstring) : jsstring :=
  requote_nonempty (spec_straighten (he_decode title)).

(** ** [Array.prototype.sort] and the merge of [main] (lines 165-166) *)

(** The comparison function of line 166,
    [(a, b) => new Date(b['Published At']).getTime() - new Date(a['Published At']).getTime()];
    [None] is [NaN]. *)
Definition comparefn (a b : VideoRecord) : option Z :=
  tb ← Date_getTime (Published_At b);
  ta ← Date_getTime (Published_At a);
  Some (tb - ta)%Z.

(** [SortCompare] of ECMAScript: a [NaN] from the comparison function counts
    as [+0]. *)
Definition SortCompare (a b : VideoRecord) : Z := default 0%Z (comparefn a b).

(** [Array.prototype.sort] as a stable insertion sort: [x], which stood before
    all of [sorted], is placed before the first element that must not come
    before it.  ECMAScript fixes the result of [sort] (a stable sorted
    permutation, see [sort_contract_unique]) when the comparison is
    consistent, which it is when every date parses.  Otherwise the order is
    left to the engine, and this sort need not give the order that Node
    gives: of arrays with dates that do not parse, only what holds of every
    engine is stated (the result is a permutation of the array), and that an
    array on which every comparison of neighbours yields zero or [NaN] is
    left as it is, by this sort as by the run detection of V8, the engine of
    Node. *)
Fixpoint sort_insert (x : VideoRecord) (sorted : list VideoRecord) : list VideoRecord :=
  match sorted with
  | [] => [x]
  | y :: rest =>
      if decide (0 < SortCompare x y)%Z then y :: sort_insert x rest
      else x :: y :: rest
  end.

Definition Array_sort (l : list VideoRecord) : list VideoRecord :=
  foldr sort_insert [] l.

(** Lines 165-166, [[...updatedExistingVideos, ...newVideos].sort(...)]. *)
Definition allVideos (updatedExistingVideos newVideos : list VideoRecord)
    : list VideoRecord :=
  Array_sort (updatedExistingVideos ++ newVideos).

(** All publication dates parse. *)
Definition timely (l : list VideoRecord) : Prop :=
  Forall (λ v, is_Some (Date_getTime (Published_At v))) l.

(** [a] may stand before [b]. *)
Definition not_later (a b : VideoRecord) : Prop :=
  ∀ ta tb, Date_getTime (Published_At a) = Some ta →
           Date_getTime (Published_At b) = Some tb → (tb ≤ ta)%Z.

(** ** The outside world *)

(** A JavaScript [Error] as the program inspects it ([error.code],
    [error.message]). *)
Record JSError := { code : option string; message : string }.

(** The API client [youtubeApi] (lines 10-13): each call answers from, and may
    change, a state of the remote service that the program cannot see. *)
Class YoutubeApi := {
  ApiState : Type;
  (** [youtubeApi.search.list({channelId, maxResults: 50, order: 'date', pageToken, ...})] *)
  search_list : string → option string → ApiState → (JSError + SearchListResponse) * ApiState;
  (** [youtubeApi.videos.list({part: [...], id: ids})] *)
  videos_list : list string → ApiState → (JSError + VideoListResponse) * ApiState
}.

(** [parse] of csv-parse and [stringify] of csv-stringify, with the options of
    lines 122-130 and 177-181; the text of a file is kept abstract. *)
Class CsvCodec := {
  FileContent : Type;
  parse : FileContent → JSError + list VideoRecord;
  stringify : list VideoRecord → FileContent
}.

Context {yt : YoutubeApi} {csv : CsvCodec}.

(** A path of the file system holds a readable file or fails to be read with
    some error (a directory, missing permissions, ...); a path that is not in
    the map does not exist. *)
Inductive FileNode :=
  | Readable (content : FileContent)
  | Faulty (error : JSError).

(** A call of [fs.writeFile] that fails rejects with an error and leaves the
    path untouched (the file could not be opened: no permission, a read-only
    file system, a directory in its place) or with a partial content (the file
    was emptied and the disk filled up during the write). *)
Record WriteFault := { write_error : JSError; left_behind : option FileContent }.

(** The state of the remote service, the files, and the paths at which a write
    fails. *)
Record World := {
  api : ApiState;
  files : gmap string FileNode;
  write_faults : gmap string WriteFault
}.

(** The external calls a computation makes, in order. *)
Inductive Event :=
  | SearchList (channelId : string) (pageToken : option string)
               (result : JSError + SearchListResponse)
  | VideosList (ids : list string) (result : JSError + VideoListResponse)
  | ReadFile (path : string)
  | WriteFile (path : string) (content : FileContent).

(** How a computation ends: it returns, throws, or is still running when the
    fuel given to the pagination loop is used up. *)
Inductive Outcome (A : Type) :=
  | Returned (a : A)
  | Thrown (error : JSError)
  | OutOfFuel.
Global Arguments Returned {A} a.
Global Arguments Thrown {A} error.
Global Arguments OutOfFuel {A}.

Record Run (A : Type) := { outcome : Outcome A; world : World; trace : list Event }.
Global Arguments outcome {A} r.
Global Arguments world {A} r.
Global Arguments trace {A} r.

Definition M (A : Type) : Type := World → Run A.

Global Instance M_ret : MRet M := λ A a w,
  {| outcome := Returned a; world := w; trace := [] |}.

Global Instance M_bind : MBind M := λ A B k m w,
  let r := m w in
  match outcome r with
  | Returned a =>
      let r' := k a (world r) in
      {| outcome := outcome r'; world := world r'; trace := trace r ++ trace r' |}
  | Thrown e => {| outcome := Thrown e; world := world r; trace := trace r |}
  | OutOfFuel => {| outcome := OutOfFuel; world := world r; trace := trace r |}
  end.

(** [throw error]. *)
Definition throw {A} (error : JSError) : M A := λ w,
  {| outcome := Thrown error; world := w; trace := [] |}.

Definition out_of_fuel {A} : M A := λ w,
  {| outcome := OutOfFuel; world := w; trace := [] |}.

(** [try { body } catch (error) { handler }]. *)
Definition try_catch {A} (body : M A) (handler : JSError → M A) : M A := λ w,
  let r := body w in
  match outcome r with
  | Thrown e =>
      let r' := handler e (world r) in
      {| outcome := outcome r'; world := world r'; trace := trace r ++ trace r' |}
  | _ => r
  end.

(** A promise that settles with [result]. *)
Definition settle {A} (result : JSError + A) : M A :=
  match result with
  | inl error => throw error
  | inr a => mret a
  end.

(** [await youtubeApi.search.list(...)]. *)
Definition call_search_list (channelId : string) (pageToken : option string)
    : M SearchListResponse := λ w,
  let '(result, api') := search_list channelId pageToken (api w) in
  let r := settle result {| api := api'; files := files w; write_faults := write_faults w |} in
  {| outcome := outcome r; world := world r;
     trace := [SearchList channelId pageToken result] |}.

(** [await youtubeApi.videos.list(...)]. *)
Definition call_videos_list (ids : list string) : M VideoListResponse := λ w,
  let '(result, api') := videos_list ids (api w) in
  let r := settle result {| api := api'; files := files w; write_faults := write_faults w |} in
  {| outcome := outcome r; world := world r; trace := [VideosList ids result] |}.

(** The error of [fs.readFile] on a path that does not exist. *)
Definition ENOENT_error : JSError :=
  {| code := Some "ENOENT"; message := "no such file or directory" |}.

(** [await fs.readFile(filePath, 'utf-8')]. *)
Definition fs_readFile (filePath : string) : M FileContent := λ w,
  let result :=
    match files w !! filePath with
    | None => inl ENOENT_error
    | Some (Faulty error) => inl error
    | Some (Readable content) => inr content
    end in
  {| outcome := outcome (settle result w); world := w; trace := [ReadFile filePath] |}.

(** [await fs.writeFile(filePath, content)]: the file is replaced as a whole,
    or the call fails as the world has it for this path. *)
Definition fs_writeFile (filePath : string) (content : FileContent) : M () := λ w,
  match write_faults w !! filePath with
  | None =>
      {| outcome := Returned ();
         world := {| api := api w;
                     files := <[filePath := Readable content]> (files w);
                     write_faults := write_faults w |};
         trace := [WriteFile filePath content] |}
  | Some fault =>
      {| outcome := Thrown (write_error fault);
         world := {| api := api w;
                     files := match left_behind fault with
                              | Some partial => <[filePath := Readable partial]> (files w)
                              | None => files w
                              end;
                     write_faults := write_faults w |};
         trace := [WriteFile filePath content] |}
  end.

(** ** [getNewVideos] (lines 24-88) *)

(** Lines 44-51, the body of [for (const item of items)]. *)
Definition push_if_new (existingIds : gset string) (newVideos : list VideoRecord)
    (item : SearchResult) : list VideoRecord :=
  match truthy_string (result_id item ≫= videoId) with
  | Some vid =>
      if decide (vid ∈ existingIds) then newVideos
      else newVideos ++
        [ {| ID := vid;
             Title := default [] (snippet item ≫= title);
             Published_At := default EmptyString (snippet item ≫= publishedAt);
             Duration := EmptyString;
             ViewCount := None;
             LikeCount := None |} ]
  | None => newVideos
  end.

(** Lines 30-57, [do { ... } while (pageToken)]; one unit of fuel per page. *)
Fixpoint search_pages (fuel : nat) (channelId : string) (existingIds : gset string)
    (pageToken : option string) (newVideos : list VideoRecord) : M (list VideoRecord) :=
  match fuel with
  | 0 => out_of_fuel
  | S fuel' =>
      response ← call_search_list channelId pageToken;
      let items := default [] (search_items response) in
      let newVideos := foldl (push_if_new existingIds) newVideos items in
      match truthy_string (nextPageToken response) with
      | Some next => search_pages fuel' channelId existingIds (Some next) newVideos
      | None => mret newVideos
      end
  end.

(** The loop shared by lines 63-80 and lines 93-109:
    [for (let i = 0; i < videos.length; i += 50) { chunk = videos.slice(i, i + 50);
    response = await videos.list({id: chunk.map(v => v.ID)});
    response.data.items?.forEach(step) }].
    The two occurrences differ in [step] only.  The loop is given [fuel]
    iterations; [length videos] of them are always enough
    ([for_each_chunk_terminates]). *)
Fixpoint for_each_chunk (fuel : nat) (step : list VideoRecord → Video → list VideoRecord)
    (i : nat) (videos : list VideoRecord) : M (list VideoRecord) :=
  if decide (i < length videos) then
    match fuel with
    | 0 => out_of_fuel
    | S fuel' =>
        let chunk := take 50 (drop i videos) in
        response ← call_videos_list (ID <$> chunk);
        for_each_chunk fuel' step (i + 50) (forEach_item step response videos)
    end
  else mret videos.

Definition getNewVideos (fuel : nat) (channelId : string) (existingIds : gset string)
    : M (list VideoRecord) :=
  try_catch
    (newVideos ← search_pages fuel channelId existingIds None [];
     if decide (0 < length newVideos)
     then for_each_chunk (length newVideos) hydrate_item 0 newVideos
     else mret newVideos)
    (λ error, throw error).

(** ** [updateExistingVideos] (lines 90-116) *)

Definition updateExistingVideos (videos : list VideoRecord) : M (list VideoRecord) :=
  try_catch
    (for_each_chunk (length videos) refresh_item 0 videos)
    (λ error, throw error).

(** ** [readCsvFile] (lines 118-142) *)

(** The [try] block returns the promise of the parse without awaiting it, so
    only a failure of [fs.readFile] reaches the [catch]; a parse error rejects
    the promise the function returned. *)
Definition readCsvFile (filePath : string) : M (list VideoRecord) :=
  pending ← try_catch
    (fileContent ← fs_readFile filePath;
     mret (parse fileContent))
    (λ error,
       if decide (code error = Some "ENOENT") then mret (inr [])
       else throw error);
  settle pending.

(** ** [main] (lines 144-196) *)

Definition channelId : string := "UC7IcJI8PUf5Z3zKxnZvTBog".
Definition filePath : string := "videos.txt".

(** The [catch] of [main] logs the error and returns. *)
Definition main (fuel : nat) : M () :=
  try_catch
    (existingVideos ← readCsvFile filePath;
     let existingIds : gset string := list_to_set (ID <$> existingVideos) in
     newVideos ← getNewVideos fuel channelId existingIds;
     updatedExistingVideos ← updateExistingVideos existingVideos;
     let csvString := stringify (processedVideos (allVideos updatedExistingVideos newVideos)) in
     fs_writeFile filePath csvString)
    (λ error, mret ()).

(** Lines 149-174 of [main]: everything before the save step, that is, the
    dataset that [main] hands to [stringify]. *)
Definition reconcile (fuel : nat) : M (list VideoRecord) :=
  existingVideos ← readCsvFile filePath;
  let existingIds : gset string := list_to_set (ID <$> existingVideos) in
  newVideos ← getNewVideos fuel channelId existingIds;
  updatedExistingVideos ← updateExistingVideos existingVideos;
  mret (processedVideos (allVideos updatedExistingVideos newVideos)).

(** ** What a trace shows *)

(** The identifier lists of the [videos.list] requests, in order. *)
Definition detail_requests (evs : list Event) : list (list string) :=
  evs ≫= λ ev, match ev with VideosList ids _ => [ids] | _ => [] end.

(** The items of the [videos.list] responses, in order. *)
Definition detail_items (evs : list Event) : list Video :=
  evs ≫= λ ev,
    match ev with
    | VideosList _ (inr response) => default [] (video_items response)
    | _ => []
    end.

(** The items of the [search.list] responses, in order. *)
Definition listed_items (evs : list Event) : list SearchResult :=
  evs ≫= λ ev,
    match ev with
    | SearchList _ _ (inr response) => default [] (search_items response)
    | _ => []
    end.

(** The identifiers in a listing that the program takes into account. *)
Definition listed_ids (items : list SearchResult) : list string :=
  omap (λ item, truthy_string (result_id item ≫= videoId)) items.

(** The contents handed to [fs.writeFile], in order. *)
Definition written (evs : list Event) : list FileContent :=
  evs ≫= λ ev, match ev with WriteFile _ content => [content] | _ => [] end.

(** ** Merging by identifier, record by record

    What the two [forEach] bodies do to one record that they have found. *)

Definition hydrate_record (item : Video) (video : VideoRecord) : VideoRecord :=
  match contentDetails item with
  | Some cd =>
      {| ID := ID video; Title := Title video; Published_At := Published_At video;
         Duration := default EmptyString (duration cd);
         ViewCount := Some (Number_or_0 (statistics item ≫= viewCount));
         LikeCount := Some (Number_or_0 (statistics item ≫= likeCount)) |}
  | None => video
  end.

Definition refresh_record (item : Video) (video : VideoRecord) : VideoRecord :=
  match statistics item with
  | Some st =>
      {| ID := ID video; Title := Title video; Published_At := Published_At video;
         Duration := Duration video;
         ViewCount := Some (Number_or_0 (viewCount st));
         LikeCount := Some (Number_or_0 (likeCount st)) |}
  | None => video
  end.

(** All items applied in order to one record; an item applies when its [id] is
    the record's. *)
Definition merge_record (upd : Video → VideoRecord → VideoRecord)
    (items : list Video) (video : VideoRecord) : VideoRecord :=
  foldl (λ v item, if decide (video_id item = Some (ID v)) then upd item v else v)
        video items.

(** [find] stops at the first record with a given identifier: the record at
    position [k] can be found only if no earlier record has its identifier. *)
Definition findable (videos : list VideoRecord) (k : nat) (video : VideoRecord) : Prop :=
  ID video ∉ ID <$> take k videos.

Definition merge_all (upd : Video → VideoRecord → VideoRecord)
    (items : list Video) (videos : list VideoRecord) : list VideoRecord :=
  imap (λ k video,
          if decide (findable videos k video) then merge_record upd items video
          else video) videos.

(** Both [forEach] bodies are instances of one scheme. *)
Definition merge_step (upd : Video → VideoRecord → VideoRecord)
    (videos : list VideoRecord) (item : Video) : list VideoRecord :=
  match find_by_id videos (video_id item) with
  | Some k => alter (upd item) k videos
  | None => videos
  end.

(** The provisional records that the listing loop collects. *)
Definition provisional (videos : list VideoRecord) : Prop :=
  Forall (λ v, Duration v = EmptyString ∧ ViewCount v = None ∧ LikeCount v = None) videos.

(** ** Order by publication time *)

(** No record comes before one that was published later; a record whose date
    does not parse constrains nothing. *)
Definition non_increasing (l : list VideoRecord) : Prop :=
  ∀ i j a b ta tb,
    i < j → l !! i = Some a → l !! j = Some b →
    Date_getTime (Published_At a) = Some ta →
    Date_getTime (Published_At b) = Some tb →
    (tb ≤ ta)%Z.

(** The records of [l] published at time [t], in the order of [l]. *)
Definition published_at (t : Z) (l : list VideoRecord) : list VideoRecord :=
  filter (λ v, Date_getTime (Published_At v) = Some t) l.

(** ** An unchanging remote *)

(** A mocked remote that does not change: the listing is a fixed function of
    the page token, and a detail request is answered, without failure, by the
    catalogue entries of the identifiers it names, each under its own
    identifier. *)
Definition answers_from (listing : option string → JSError + SearchListResponse)
    (catalog : string → option Video) : Prop :=
  (∀ ch pageToken st, (search_list ch pageToken st).1 = listing pageToken)
  ∧ (∀ ids st, ∃ response,
        (videos_list ids st).1 = inr response
        ∧ default [] (video_items response) = omap catalog ids)
  ∧ (∀ i item, catalog i = Some item → video_id item = Some i).

(** The counts of a record are those that the catalogue has for it. *)
Definition settled (catalog : string → option Video) (v : VideoRecord) : Prop :=
  ∀ item st, catalog (ID v) = Some item → statistics item = Some st →
    ViewCount v = Some (Number_or_0 (viewCount st))
    ∧ LikeCount v = Some (Number_or_0 (likeCount st)).

(** [loaded] is what the parser returns for the record saved as [saved], as
    far as the next run depends on it: the four texts are those saved, and so
    are the counts unless the catalogue has statistics for the record (the
    refresher then overwrites them, whatever was loaded). *)
Definition read_back (catalog : string → option Video) (saved loaded : VideoRecord) : Prop :=
  ID loaded = ID saved ∧ Title loaded = Title saved
  ∧ Published_At loaded = Published_At saved ∧ Duration loaded = Duration saved
  ∧ ((∀ item, catalog (ID saved) = Some item → statistics item = None) →
     ViewCount loaded = ViewCount saved ∧ LikeCount loaded = LikeCount saved).

(** ** What normalisation may do to a character *)

(** A character [c] of the decoded title and the character [c'] that stands
    at its place in the normalised title: a curly single quote has become an
    apostrophe, a double quote has stayed or become an apostrophe, any other
    character has stayed. *)
Definition normalised_char (c c' : N) : Prop :=
  c' = straighten c ∨ (c = DQUOTE ∧ c' = APOSTROPHE).

(** ** What the listing contributes *)

(** The identifier, title and date that lines 44-50 take from a listed item,
    when they take it: its [videoId] is not empty and not known. *)
Definition taken_from (existingIds : gset string) (item : SearchResult)
    : option (string * jsstring * string) :=
  vid ← truthy_string (result_id item ≫= videoId);
  if decide (vid ∈ existingIds) then None
  else Some (vid, default [] (snippet item ≫= title),
             default EmptyString (snippet item ≫= publishedAt)).

Definition listed_fields (v : VideoRecord) : string * jsstring * string :=
  (ID v, Title v, Published_At v).

(** ** More of what a trace shows *)

(** The [search.list] calls: channel, page token sent, result. *)
Definition search_calls (evs : list Event)
    : list (string * option string * (JSError + SearchListResponse)) :=
  evs ≫= λ ev,
    match ev with
    | SearchList ch pageToken result => [(ch, pageToken, result)]
    | _ => []
    end.

(** The calls are for channel [ch]; the first sends [pageToken], every
    further one the non-empty [nextPageToken] of the response before it; no
    call follows a failure or a response without such a token. *)
Fixpoint follows_tokens (ch : string) (pageToken : option string)
    (calls : list (string * option string * (JSError + SearchListResponse))) : Prop :=
  match calls with
  | [] => True
  | (ch', sent, result) :: rest =>
      ch' = ch ∧ sent = pageToken
      ∧ match result with
        | inl _ => rest = []
        | inr response =>
            match truthy_string (nextPageToken response) with
            | Some next => follows_tokens ch (Some next) rest
            | None => rest = []
            end
        end
  end.

(** The error of an API call that failed. *)
Definition failure_of (ev : Event) : option JSError :=
  match ev with
  | SearchList _ _ (inl e) => Some e
  | VideosList _ (inl e) => Some e
  | _ => None
  end.

(** A run throws the error of its last API call, all calls before it having
    succeeded; or it does not throw, and no API call has failed. *)
Definition stops_at_failure {A} (r : Run A) : Prop :=
  match outcome r with
  | Thrown e =>
      ∃ before ev, trace r = before ++ [ev] ∧ failure_of ev = Some e
                   ∧ omap failure_of before = []
  | _ => omap failure_of (trace r) = []
  end.

(** [Math.ceil(n / 50)] for an array length [n]. *)
Definition ceil_div_50 (n : nat) : nat := (n + 49) / 50.

(** Line 190, [const videoCalls = Math.ceil((newVideos.length +
    existingVideos.length) / 50)]. *)
Definition videoCalls (newCount existingCount : nat) : nat :=
  ceil_div_50 (newCount + existingCount).

End Model.

(** ** Concrete environments for the examples

    Small implementations of the interfaces above.  Each agrees with the real
    built-in or library on the inputs the examples feed it. *)

Module Sample.

(** [Number] on strings of decimal digits (what the API sends for counts);
    anything else, and [undefined], is [NaN] ([None]). *)
Definition digit_value (c : ascii) : option Z :=
  let n := Z.of_N (N_of_ascii c) in
  if decide (48 ≤ n ≤ 57)%Z then Some (n - 48)%Z else None.

Fixpoint decimal (acc : Z) (s : string) : option Z :=
  match s with
  | EmptyString => Some acc
  | String c r => d ← digit_value c; decimal (10 * acc + d) r
  end.

(** What a count field holds when the program runs: a number ([None] is
    [NaN]), or a string, which is what csv-parse returns for every field. *)
Inductive count_value :=
  | Num (n : option Z)
  | Str (s : string).

Definition sample_Number (v : option string) : count_value := Num (v ≫= decimal 0).

Definition sample_truthy (n : count_value) : bool :=
  match n with
  | Num (Some z) => negb (z =? 0)%Z
  | Num None => false
  | Str s => bool_decide (s ≠ EmptyString)
  end.

(** [Date] on UTC timestamps [YYYY-MM-DDTHH:MM:SSZ] (what the API sends for
    [publishedAt]); anything else is taken to be an invalid date. *)
Definition days_from_civil (y m d : Z) : Z :=
  let y' := (if decide (m ≤ 2) then y - 1 else y)%Z in
  let era := (y' / 400)%Z in
  let yoe := (y' - era * 400)%Z in
  let mp := ((m + 9) mod 12)%Z in
  let doy := ((153 * mp + 2) / 5 + d - 1)%Z in
  let doe := (yoe * 365 + yoe / 4 - yoe / 100 + doy)%Z in
  (era * 146097 + doe - 719468)%Z.

Definition days_in_month (y m : Z) : Z :=
  if decide (m = 2)%Z then
    if decide ((y mod 4 = 0 ∧ y mod 100 ≠ 0) ∨ y mod 400 = 0)%Z then 29 else 28
  else if decide (m = 4 ∨ m = 6 ∨ m = 9 ∨ m = 11)%Z then 30 else 31.

Definition field (s : string) (start len : nat) : option Z :=
  decimal 0 (String.substring start len s).

Definition sample_getTime (s : string) : option Z :=
  let at_ (i : nat) := String.substring i 1 s in
  if decide (String.length s = 20%nat
             ∧ at_ 4 = "-" ∧ at_ 7 = "-" ∧ at_ 10 = "T"
             ∧ at_ 13 = ":" ∧ at_ 16 = ":" ∧ at_ 19 = "Z")
  then
    y ← field s 0 4; m ← field s 5 2; d ← field s 8 2;
    hh ← field s 11 2; mm ← field s 14 2; ss ← field s 17 2;
    if decide (1 ≤ m ≤ 12 ∧ 1 ≤ d ≤ days_in_month y m
               ∧ hh ≤ 23 ∧ mm ≤ 59 ∧ ss ≤ 59)%Z
    then Some ((((days_from_civil y m d * 24 + hh) * 60 + mm) * 60 + ss) * 1000)%Z
    else None
  else None.

(** [he.decode] on the named character references below, written with their
    semicolon; all other text, a lone ampersand included, is left as it is. *)
Definition references : list (string * N) :=
  [("quot;", 34%N); ("amp;", 38%N); ("apos;", 39%N); ("lt;", 60%N); ("gt;", 62%N);
   ("lsquo;", 8216%N); ("rsquo;", 8217%N)].

Definition AMPERSAND : N := 38.

(** The first reference whose name is a prefix of [s]. *)
Definition reference_at (s : jsstring) : option (nat * N) :=
  (λ entry, (String.length entry.1, entry.2)) <$>
    head (filter (λ entry, utf16 entry.1 `prefix_of` s) references).

Fixpoint decode_from (skip : nat) (s : jsstring) : jsstring :=
  match s with
  | [] => []
  | c :: s' =>
      match skip with
      | S n => decode_from n s'
      | 0 =>
          if decide (c = AMPERSAND) then
            match reference_at s' with
            | Some (len, decoded) => decoded :: decode_from len s'
            | None => c :: decode_from 0 s'
            end
          else c :: decode_from 0 s'
      end
  end.

Definition sample_decode (s : jsstring) : jsstring := decode_from 0 s.

#[export] Instance numbers : JSNumbers := {| JSNumber := count_value |}.

#[export] Instance runtime : JSRuntime := {|
  Number_ := sample_Number;
  number_truthy := sample_truthy;
  number_zero := Num (Some 0%Z);
  Date_getTime := sample_getTime;
  he_decode := sample_decode
|}.

(** A mocked API that does not change: every call is answered by a fixed
    function of its arguments. *)
Definition fixed_api
    (search : option string → JSError + SearchListResponse)
    (videos : list string → JSError + VideoListResponse) : YoutubeApi := {|
  ApiState := ();
  search_list := λ _ pageToken st, (search pageToken, st);
  videos_list := λ ids st, (videos ids, st)
|}.

(** The file as csv-stringify lays it out under [quoted_string: true], cell
    by cell: a string between double quotes, a number as its digits,
    [undefined] as nothing.  The header line, the same in every file, is left
    out. *)
Inductive cell :=
  | Quoted (text : jsstring)
  | Bare (text : jsstring)
  | Blank.

Record row := {
  ID_cell : cell;
  Title_cell : cell;
  Published_At_cell : cell;
  Duration_cell : cell;
  ViewCount_cell : cell;
  LikeCount_cell : cell
}.

Definition count_cell (v : option count_value) : cell :=
  match v with
  | None => Blank
  | Some (Num (Some z)) => Bare (utf16 (pretty z))
  | Some (Num None) => Bare (utf16 "NaN")
  | Some (Str s) => Quoted (utf16 s)
  end.

Definition sample_stringify (records : list VideoRecord) : list row :=
  (λ v, {| ID_cell := Quoted (utf16 (ID v));
           Title_cell := Quoted (Title v);
           Published_At_cell := Quoted (utf16 (Published_At v));
           Duration_cell := Quoted (utf16 (Duration v));
           ViewCount_cell := count_cell (ViewCount v);
           LikeCount_cell := count_cell (LikeCount v) |}) <$> records.

(** csv-parse without the [cast] option: every field of a record is the text
    of its cell, a string, the counts included. *)
Definition cell_text (c : cell) : jsstring :=
  match c with
  | Quoted text | Bare text => text
  | Blank => []
  end.

Fixpoint narrow (s : jsstring) : string :=
  match s with
  | [] => EmptyString
  | c :: s' => String (ascii_of_N c) (narrow s')
  end.

Definition sample_parse (rows : list row) : JSError + list VideoRecord :=
  inr ((λ r, {| ID := narrow (cell_text (ID_cell r));
                Title := cell_text (Title_cell r);
                Published_At := narrow (cell_text (Published_At_cell r));
                Duration := narrow (cell_text (Duration_cell r));
                ViewCount := Some (Str (narrow (cell_text (ViewCount_cell r))));
                LikeCount := Some (Str (narrow (cell_text (LikeCount_cell r)))) |})
         <$> rows).

#[export] Instance codec : CsvCodec := {|
  FileContent := list row;
  parse := sample_parse;
  stringify := sample_stringify
|}.

(** A listing item with an identifier, a title and a publication date. *)
Definition listed (vid : string) (t : string) (published : string) : SearchResult :=
  {| result_id := Some {| videoId := Some vid |};
     snippet := Some {| title := Some (utf16 t); publishedAt := Some published |} |}.

(** A detail item with duration and counts. *)
Definition detailed (vid : string) (d : string) (views likes : string) : Video :=
  {| video_id := Some vid;
     contentDetails := Some {| duration := Some d |};
     statistics := Some {| viewCount := Some views; likeCount := Some likes |} |}.

Definition page (items : list SearchResult) (next : option string)
    : JSError + SearchListResponse :=
  inr {| search_items := Some items; nextPageToken := next |}.

Definition details (items : list Video) : JSError + VideoListResponse :=
  inr {| video_items := Some items |}.

Definition network_error : JSError := {| code := Some "ECONNRESET"; message := "socket hang up" |}.

Definition empty_world (yt : YoutubeApi) (st : ApiState) : World :=
  {| api := st; files := ∅; write_faults := ∅ |}.

(** *** Scenarios *)

(** A world whose dataset file is what the program wrote for [records]. *)
Definition stored (yt : YoutubeApi) (st : ApiState) (records : list VideoRecord) : World :=
  {| api := st; files := {[ filePath := Readable (stringify records) ]};
     write_faults := ∅ |}.

(** The local dataset of the new-video scenario, and a record that the remote
    does not know; both as loaded from a file, their counts strings. *)
Definition video_a : VideoRecord :=
  {| ID := "a"; Title := utf16 "First"; Published_At := "2020-01-01T00:00:00Z";
     Duration := "PT1M"; ViewCount := Some (Str "5"); LikeCount := Some (Str "1") |}.

(** [video_a] with the counts 7 and 1, numbers. *)
Definition video_a_refreshed : VideoRecord :=
  {| ID := "a"; Title := utf16 "First"; Published_At := "2020-01-01T00:00:00Z";
     Duration := "PT1M";
     ViewCount := Some (Num (Some 7%Z)); LikeCount := Some (Num (Some 1%Z)) |}.

Definition video_c : VideoRecord :=
  {| ID := "c"; Title := utf16 "Gone"; Published_At := "2019-06-01T12:00:00Z";
     Duration := "PT3M"; ViewCount := Some (Str "3"); LikeCount := Some (Str "0") |}.

(** The new-video scenario: the listing has [b], newer, and [a]. *)
Definition catalog1 (i : string) : option Video :=
  if decide (i = "a") then Some (detailed "a" "PT1M" "7" "1")
  else if decide (i = "b") then Some (detailed "b" "PT2M" "10" "2")
  else None.

Definition listing1 (pageToken : option string) : JSError + SearchListResponse :=
  page [listed "b" "Second" "2021-01-01T00:00:00Z";
        listed "a" "First" "2020-01-01T00:00:00Z"] None.

Definition new_video_api : YoutubeApi :=
  fixed_api listing1 (λ ids, details (omap catalog1 ids)).

(** A listing that shows [x] on both of its pages. *)
Definition listing_twice (pageToken : option string) : JSError + SearchListResponse :=
  match pageToken with
  | None => page [listed "a" "First" "2020-01-01T00:00:00Z";
                  listed "x" "Extra" "2021-01-01T00:00:00Z"] (Some "page2")
  | Some _ => page [listed "x" "Extra" "2021-01-01T00:00:00Z"] None
  end.

Definition twice_api : YoutubeApi :=
  fixed_api listing_twice (λ ids, details ((λ i, detailed i "PT1M" "5" "1") <$> ids)).

(** A remote whose duration for [a] differs from the stored one. *)
Definition longer_api : YoutubeApi :=
  fixed_api listing1 (λ ids, details ((λ i, detailed i "PT9M" "7" "1") <$> ids)).

(** A remote whose detail items have statistics and no contentDetails. *)
Definition statistics_only (vid : string) : Video :=
  {| video_id := Some vid; contentDetails := None;
     statistics := Some {| viewCount := Some "10"; likeCount := Some "2" |} |}.

Definition statistics_only_api : YoutubeApi :=
  fixed_api listing1 (λ ids, details (statistics_only <$> ids)).

(** A remote whose listing fails. *)
Definition failing_api : YoutubeApi :=
  fixed_api (λ _, inl network_error) (λ ids, details []).

(** A new video without publication date between two dated ones. *)
Definition undated : VideoRecord :=
  {| ID := "u"; Title := utf16 "Undated"; Published_At := EmptyString;
     Duration := EmptyString; ViewCount := None; LikeCount := None |}.

Definition video_b : VideoRecord :=
  {| ID := "b"; Title := utf16 "Second"; Published_At := "2021-01-01T00:00:00Z";
     Duration := "PT2M";
     ViewCount := Some (Num (Some 10%Z)); LikeCount := Some (Num (Some 2%Z)) |}.

(** A video whose title is, literally, an escaped ampersand. *)
Definition listing_amp (pageToken : option string) : JSError + SearchListResponse :=
  page [listed "v" "A &amp;amp; B" "2022-03-04T05:06:07Z"] None.

Definition amp_api : YoutubeApi :=
  fixed_api listing_amp (λ ids, details ((λ i, detailed i "PT1M" "5" "1") <$> ids)).

(** The titles in the files written. *)
Definition titles (contents : list (list row)) : list (list jsstring) :=
  map (map (λ r, cell_text (Title_cell r))) contents.

Definition permission_error : JSError :=
  {| code := Some "EACCES"; message := "permission denied" |}.

(** The count cells in the files written. *)
Definition counts (contents : list (list row)) : list (list (cell * cell)) :=
  map (map (λ r, (ViewCount_cell r, LikeCount_cell r))) contents.

(** A remote that lists [b] and [a] and returns no details for any video. *)
Definition unanswered_api : YoutubeApi :=
  fixed_api listing1 (λ ids, details []).

(** [w] with a dataset file that cannot be opened for writing. *)
Definition read_only (yt : YoutubeApi) (w : World) : World :=
  {| api := api w; files := files w;
     write_faults :=
       {[ filePath := {| write_error := permission_error; left_behind := None |} ]} |}.

(** A channel without videos. *)
Definition empty_api : YoutubeApi :=
  fixed_api (λ _, page [] None) (λ ids, details []).

(** A local dataset of 51 records, one more than a batch holds. *)
Definition fifty_one : list VideoRecord := replicate 51 video_a.

End Sample.

(** * Properties *)

Section Properties.
Context {nums : JSNumbers} {rt : JSRuntime} {yt : YoutubeApi} {csv : CsvCodec}.
Implicit Types (videos : list VideoRecord) (item : Video) (items : list Video).

Lemma find_by_id_Some videos o k :
  find_by_id videos o = Some k ↔
  ∃ v, videos !! k = Some v ∧ o = Some (ID v) ∧ findable videos k v.
Proof.
  unfold find_by_id, findable. destruct o as [i|]; simpl.
  - split.
    + intros Hf. destruct (list_find _ videos) as [[k' v]|] eqn:E; simplify_eq/=.
      apply list_find_Some in E as (Hk & <- & Hbefore).
      exists v. split_and!; [done..|].
      intros (v' & Hid & Hin)%list_elem_of_fmap.
      apply list_elem_of_lookup in Hin as [j Hj].
      apply lookup_take_Some in Hj as [Hj Hlt]. by eapply Hbefore.
    + intros (v & Hk & [= ->] & Hnot).
      assert (list_find (λ v0, ID v0 = ID v) videos = Some (k, v)) as ->; [|done].
      apply list_find_Some. split_and!; [done..|].
      intros j y Hj Hlt Hy. apply Hnot. apply list_elem_of_fmap.
      exists y. split; [done|]. apply list_elem_of_lookup. exists j.
      apply lookup_take_Some. done.
  - split; [done|]. by intros (? & ? & ? & ?).
Qed.

Lemma hydrate_item_merge_step videos item :
  hydrate_item videos item = merge_step hydrate_record videos item.
Proof.
  unfold hydrate_item, merge_step, hydrate_record.
  destruct (find_by_id _ _) as [k|]; [|done].
  destruct (contentDetails item); [done|].
  symmetry. by apply list_alter_id.
Qed.

Lemma refresh_item_merge_step videos item :
  refresh_item videos item = merge_step refresh_record videos item.
Proof.
  unfold refresh_item, merge_step, refresh_record.
  destruct (find_by_id _ _) as [k|]; [|done].
  destruct (statistics item); [done|].
  symmetry. by apply list_alter_id.
Qed.

Section merge.
Variable upd : Video → VideoRecord → VideoRecord.
Hypothesis upd_ID : ∀ item v, ID (upd item v) = ID v.

Lemma merge_step_lookup videos item k :
  merge_step upd videos item !! k =
  (λ v, if decide (findable videos k v ∧ video_id item = Some (ID v))
        then upd item v else v) <$> videos !! k.
Proof.
  unfold merge_step.
  destruct (find_by_id videos (video_id item)) as [k'|] eqn:E.
  - apply find_by_id_Some in E as (v' & Hk' & Hid & Hfirst).
    destruct (decide (k = k')) as [->|Hne].
    + rewrite list_lookup_alter_eq, Hk'. simpl. by rewrite decide_True.
    + rewrite list_lookup_alter_ne by done.
      destruct (videos !! k) as [v|] eqn:Hk; [|done]. simpl.
      rewrite decide_False; [done|]. intros [Hf Hid'].
      assert (find_by_id videos (video_id item) = Some k) as E1.
      { apply find_by_id_Some. eauto. }
      assert (find_by_id videos (video_id item) = Some k') as E2.
      { apply find_by_id_Some. eauto. }
      congruence.
  - destruct (videos !! k) as [v|] eqn:Hk; [|done]. simpl.
    rewrite decide_False; [done|]. intros [Hf Hid'].
    assert (find_by_id videos (video_id item) = Some k) as E1.
    { apply find_by_id_Some. eauto. }
    congruence.
Qed.

Lemma merge_step_IDs videos item :
  ID <$> merge_step upd videos item = ID <$> videos.
Proof.
  apply list_eq. intros k. rewrite !list_lookup_fmap, merge_step_lookup.
  destruct (videos !! k) as [v|]; [|done]. simpl. by case_decide; rewrite ?upd_ID.
Qed.

Lemma merge_record_ID items v : ID (merge_record upd items v) = ID v.
Proof.
  unfold merge_record. revert v. induction items as [|item items IH]; intros v; [done|].
  simpl. rewrite IH. by case_decide; rewrite ?upd_ID.
Qed.

Lemma findable_IDs videos videos' k v v' :
  ID <$> videos' = ID <$> videos → ID v' = ID v →
  findable videos' k v' ↔ findable videos k v.
Proof.
  unfold findable. intros HIDs ->. by rewrite !fmap_take, HIDs.
Qed.

Lemma foldl_merge_step items videos :
  foldl (merge_step upd) videos items = merge_all upd items videos.
Proof.
  revert videos. induction items as [|item items IH]; intros videos.
  - simpl. unfold merge_all. apply list_eq. intros k.
    rewrite list_lookup_imap. destruct (videos !! k); [|done]. simpl.
    by case_decide.
  - simpl. rewrite IH. unfold merge_all. apply list_eq. intros k.
    rewrite !list_lookup_imap, merge_step_lookup.
    destruct (videos !! k) as [v|] eqn:Hk; [|done]. simpl.
    assert (∀ v', ID v' = ID v →
              findable (merge_step upd videos item) k v' ↔ findable videos k v) as Hfeq.
    { intros v' Hv'. apply findable_IDs; [apply merge_step_IDs|done]. }
    unfold merge_record. simpl.
    destruct (decide (findable videos k v ∧ _)) as [[Hf Hid]|Hn].
    + rewrite decide_True by (by apply Hfeq).
      by rewrite !decide_True by done.
    + destruct (decide (findable videos k v)) as [Hf|Hf].
      * rewrite decide_True by (by apply Hfeq).
        rewrite decide_False; [done|]. tauto.
      * rewrite decide_False; [done|]. by rewrite Hfeq.
Qed.

Lemma merge_all_IDs items videos : ID <$> merge_all upd items videos = ID <$> videos.
Proof.
  unfold merge_all. apply list_eq. intros k.
  rewrite !list_lookup_fmap, list_lookup_imap.
  destruct (videos !! k); [|done]. simpl. by case_decide; rewrite ?merge_record_ID.
Qed.

Lemma merge_all_length items videos : length (merge_all upd items videos) = length videos.
Proof. unfold merge_all. by rewrite length_imap. Qed.

End merge.

(** *** Runs of the monad *)

Lemma run_eta {A} (r : Run A) :
  {| outcome := outcome r; world := world r; trace := trace r |} = r.
Proof. by destruct r. Qed.

Lemma bind_run {A B} (m : M A) (k : A → M B) w :
  (m ≫= k) w =
  match outcome (m w) with
  | Returned a =>
      {| outcome := outcome (k a (world (m w))); world := world (k a (world (m w)));
         trace := trace (m w) ++ trace (k a (world (m w))) |}
  | Thrown e => {| outcome := Thrown e; world := world (m w); trace := trace (m w) |}
  | OutOfFuel => {| outcome := OutOfFuel; world := world (m w); trace := trace (m w) |}
  end.
Proof. done. Qed.

Lemma try_catch_rethrow {A} (m : M A) w : try_catch m (λ error, throw error) w = m w.
Proof.
  unfold try_catch, throw. destruct (m w) as [[a|e|] w' t] eqn:E; simpl; [done| |done].
  by rewrite app_nil_r.
Qed.

Lemma call_videos_list_run ids w :
  call_videos_list ids w =
  {| outcome := match (videos_list ids (api w)).1 with
                | inl e => Thrown e
                | inr response => Returned response
                end;
     world := {| api := (videos_list ids (api w)).2; files := files w;
                 write_faults := write_faults w |};
     trace := [VideosList ids (videos_list ids (api w)).1] |}.
Proof.
  unfold call_videos_list. destruct (videos_list ids (api w)) as [[e|response] st]; done.
Qed.

Lemma call_search_list_run ch tok w :
  call_search_list ch tok w =
  {| outcome := match (search_list ch tok (api w)).1 with
                | inl e => Thrown e
                | inr response => Returned response
                end;
     world := {| api := (search_list ch tok (api w)).2; files := files w;
                 write_faults := write_faults w |};
     trace := [SearchList ch tok (search_list ch tok (api w)).1] |}.
Proof.
  unfold call_search_list. destruct (search_list ch tok (api w)) as [[e|response] st]; done.
Qed.

(** One iteration of the chunk loop. *)
Lemma for_each_chunk_step fuel step i videos w :
  i < length videos →
  for_each_chunk (S fuel) step i videos w =
  let ids := ID <$> take 50 (drop i videos) in
  let answer := videos_list ids (api w) in
  let w' := {| api := answer.2; files := files w; write_faults := write_faults w |} in
  match answer.1 with
  | inl e => {| outcome := Thrown e; world := w'; trace := [VideosList ids (inl e)] |}
  | inr response =>
      let r := for_each_chunk fuel step (i + 50) (forEach_item step response videos) w' in
      {| outcome := outcome r; world := world r;
         trace := VideosList ids (inr response) :: trace r |}
  end.
Proof.
  intros Hi. simpl. rewrite decide_True by done.
  rewrite bind_run, call_videos_list_run. simpl.
  by destruct (videos_list _ _) as [[e|response] st].
Qed.

Lemma for_each_chunk_done fuel step i videos w :
  ¬ i < length videos →
  for_each_chunk fuel step i videos w =
  {| outcome := Returned videos; world := w; trace := [] |}.
Proof. intros Hi. destruct fuel; simpl; by rewrite decide_False. Qed.

(** What a run of the chunk loop does: it touches no file, it asks for between
    1 and 50 identifiers at a time, and what it returns is the fold of [step]
    over all the items it received. *)
Lemma for_each_chunk_spec step fuel i videos w :
  let r := for_each_chunk fuel step i videos w in
  files (world r) = files w
  ∧ Forall (λ ids, 0 < length ids ≤ 50) (detail_requests (trace r))
  ∧ listed_items (trace r) = []
  ∧ written (trace r) = []
  ∧ ∀ out, outcome r = Returned out → out = foldl step videos (detail_items (trace r)).
Proof.
  revert i videos w. induction fuel as [|fuel IH]; intros i videos w.
  - simpl. case_decide; simpl; split_and!; try done; by intros ? [= <-].
  - destruct (decide (i < length videos)) as [Hi|Hi].
    + rewrite for_each_chunk_step by done. cbv zeta.
      destruct (videos_list _ _) as [[e|response] st] eqn:E; simpl.
      * split_and!; try done.
        constructor; [|constructor]. rewrite length_fmap, length_take, length_drop; lia.
      * specialize (IH (i + 50) (forEach_item step response videos)
                       {| api := st; files := files w; write_faults := write_faults w |}).
        destruct IH as (Hfiles & Hreq & Hlist & Hwr & Hout). split_and!; try done.
        -- constructor; [|done]. rewrite length_fmap, length_take, length_drop; lia.
        -- intros out Ho. rewrite (Hout out Ho). unfold detail_items at 2. simpl.
           by rewrite foldl_app.
    + rewrite for_each_chunk_done by done. simpl. split_and!; try done.
      by intros ? [= <-].
Qed.

(** The chunk loop never runs out of iterations when it is given one per
    record and [step] keeps the number of records. *)
Lemma for_each_chunk_terminates
    (step : list VideoRecord → Video → list VideoRecord) (fuel i : nat) videos w :
  (∀ videos item, length (step videos item) = length videos) →
  length videos ≤ i + 50 * fuel →
  outcome (for_each_chunk fuel step i videos w) ≠ OutOfFuel.
Proof.
  intros Hstep. revert i videos w. induction fuel as [|fuel IH]; intros i videos w Hlen.
  - rewrite for_each_chunk_done by lia. done.
  - destruct (decide (i < length videos)) as [Hi|Hi].
    + rewrite for_each_chunk_step by done. cbv zeta.
      destruct (videos_list _ _) as [[e|response] st]; simpl; [done|].
      apply IH. unfold forEach_item.
      assert (∀ items vs, length (foldl step vs items) = length vs) as Hfold.
      { induction items as [|it items IHi]; intros vs; simpl; [done|].
        by rewrite IHi, Hstep. }
      rewrite Hfold. lia.
    + by rewrite for_each_chunk_done.
Qed.

Lemma detail_requests_app (t1 t2 : list Event) :
  detail_requests (t1 ++ t2) = detail_requests t1 ++ detail_requests t2.
Proof. apply bind_app. Qed.

Lemma detail_items_app (t1 t2 : list Event) :
  detail_items (t1 ++ t2) = detail_items t1 ++ detail_items t2.
Proof. apply bind_app. Qed.

Lemma listed_items_app (t1 t2 : list Event) :
  listed_items (t1 ++ t2) = listed_items t1 ++ listed_items t2.
Proof. apply bind_app. Qed.

Lemma written_app (t1 t2 : list Event) : written (t1 ++ t2) = written t1 ++ written t2.
Proof. apply bind_app. Qed.

(** One page of the listing loop. *)
Lemma search_pages_step fuel ch (known : gset string) tok acc w :
  search_pages (S fuel) ch known tok acc w =
  let answer := search_list ch tok (api w) in
  let w' := {| api := answer.2; files := files w; write_faults := write_faults w |} in
  match answer.1 with
  | inl e => {| outcome := Thrown e; world := w'; trace := [SearchList ch tok (inl e)] |}
  | inr response =>
      let acc' := foldl (push_if_new known) acc (default [] (search_items response)) in
      let r := match truthy_string (nextPageToken response) with
               | Some next => search_pages fuel ch known (Some next) acc' w'
               | None => {| outcome := Returned acc'; world := w'; trace := [] |}
               end in
      {| outcome := outcome r; world := world r;
         trace := SearchList ch tok (inr response) :: trace r |}
  end.
Proof.
  simpl. rewrite bind_run, call_search_list_run. simpl.
  destruct (search_list _ _ _) as [[e|response] st]; simpl; [done|].
  by destruct (truthy_string _).
Qed.

Lemma search_pages_spec ch (known : gset string) fuel tok acc w :
  let r := search_pages fuel ch known tok acc w in
  files (world r) = files w
  ∧ detail_requests (trace r) = []
  ∧ detail_items (trace r) = []
  ∧ written (trace r) = []
  ∧ ∀ out, outcome r = Returned out →
      out = foldl (push_if_new known) acc (listed_items (trace r)).
Proof.
  revert tok acc w. induction fuel as [|fuel IH]; intros tok acc w.
  - simpl. split_and!; done.
  - rewrite search_pages_step. cbv zeta.
    destruct (search_list _ _ _) as [[e|response] st]; simpl; [split_and!; done|].
    destruct (truthy_string _) as [next|].
    + specialize (IH (Some next)
        (foldl (push_if_new known) acc (default [] (search_items response)))
        {| api := st; files := files w; write_faults := write_faults w |}).
      destruct IH as (Hfiles & Hreq & Hitems & Hwr & Hout). split_and!; try done.
      intros out Ho. rewrite (Hout out Ho). unfold listed_items at 2. simpl.
      by rewrite foldl_app.
    + simpl. split_and!; try done. intros out [= <-].
      unfold listed_items. simpl. by rewrite app_nil_r.
Qed.

Lemma hydrate_item_length videos item :
  length (hydrate_item videos item) = length videos.
Proof.
  unfold hydrate_item. destruct (find_by_id _ _); [|done].
  destruct (contentDetails item); [|done]. by rewrite length_alter.
Qed.

Lemma refresh_item_length videos item :
  length (refresh_item videos item) = length videos.
Proof.
  unfold refresh_item. destruct (find_by_id _ _); [|done].
  destruct (statistics item); [|done]. by rewrite length_alter.
Qed.

Lemma hydrate_record_ID item v : ID (hydrate_record item v) = ID v.
Proof. unfold hydrate_record. by destruct (contentDetails item). Qed.

Lemma refresh_record_ID item v : ID (refresh_record item v) = ID v.
Proof. unfold refresh_record. by destruct (statistics item). Qed.

Lemma foldl_hydrate_item items videos :
  foldl hydrate_item videos items = merge_all hydrate_record items videos.
Proof.
  rewrite <-foldl_merge_step by apply hydrate_record_ID.
  revert videos. induction items as [|item items IH]; intros videos; [done|].
  simpl. by rewrite IH, hydrate_item_merge_step.
Qed.

Lemma foldl_refresh_item items videos :
  foldl refresh_item videos items = merge_all refresh_record items videos.
Proof.
  rewrite <-foldl_merge_step by apply refresh_record_ID.
  revert videos. induction items as [|item items IH]; intros videos; [done|].
  simpl. by rewrite IH, refresh_item_merge_step.
Qed.

(** [updateExistingVideos] as a whole. *)
Lemma updateExistingVideos_spec videos w :
  let r := updateExistingVideos videos w in
  files (world r) = files w
  ∧ Forall (λ ids, 0 < length ids ≤ 50) (detail_requests (trace r))
  ∧ listed_items (trace r) = []
  ∧ written (trace r) = []
  ∧ outcome r ≠ OutOfFuel
  ∧ ∀ out, outcome r = Returned out →
      out = merge_all refresh_record (detail_items (trace r)) videos.
Proof.
  unfold updateExistingVideos. rewrite try_catch_rethrow.
  destruct (for_each_chunk_spec refresh_item (length videos) 0 videos w)
    as (Hfiles & Hreq & Hlist & Hwr & Hout).
  split_and!; try done.
  - apply for_each_chunk_terminates; [apply refresh_item_length|lia].
  - intros out Ho. rewrite (Hout out Ho). apply foldl_refresh_item.
Qed.

Lemma foldl_push_if_new (known : gset string) results acc :
  ID <$> foldl (push_if_new known) acc results
    = (ID <$> acc) ++ filter (λ i, i ∉ known) (listed_ids results)
  ∧ (provisional acc → provisional (foldl (push_if_new known) acc results)).
Proof.
  revert acc. induction results as [|item results IH]; intros acc.
  - simpl. by rewrite app_nil_r.
  - simpl. destruct (IH (push_if_new known acc item)) as [IH1 IH2].
    unfold listed_ids in *. simpl. rewrite IH1. clear IH1.
    unfold push_if_new in *.
    destruct (truthy_string (result_id item ≫= videoId)) as [vid|]; [|done].
    rewrite filter_cons. destruct (decide (vid ∈ known)).
    + rewrite decide_False by tauto. done.
    + rewrite decide_True by done. rewrite fmap_app, <-app_assoc. split; [done|].
      intros Hacc. apply IH2. apply Forall_app. split; [done|]. by repeat constructor.
Qed.

(** [getNewVideos] as a whole. *)
Lemma getNewVideos_spec fuel ch (known : gset string) w :
  let r := getNewVideos fuel ch known w in
  let newVideos := foldl (push_if_new known) [] (listed_items (trace r)) in
  files (world r) = files w
  ∧ Forall (λ ids, 0 < length ids ≤ 50) (detail_requests (trace r))
  ∧ written (trace r) = []
  ∧ (newVideos = [] → detail_requests (trace r) = [])
  ∧ ∀ out, outcome r = Returned out →
      out = merge_all hydrate_record (detail_items (trace r)) newVideos.
Proof.
  unfold getNewVideos. rewrite try_catch_rethrow, bind_run.
  destruct (search_pages_spec ch known fuel None [] w)
    as (Hfiles & Hreq & Hitems & Hwr & Hout).
  destruct (outcome (search_pages _ _ _ _ _ _)) as [newVideos| |] eqn:E; simpl;
    [|by rewrite Hreq, Hwr..].
  specialize (Hout _ eq_refl).
  rewrite detail_requests_app, written_app, detail_items_app, listed_items_app.
  rewrite Hreq, Hitems, Hwr. simpl.
  destruct (decide (0 < length newVideos)) as [Hpos|Hpos].
  - destruct (for_each_chunk_spec hydrate_item (length newVideos) 0 newVideos
                (world (search_pages fuel ch known None [] w)))
      as (Hfiles' & Hreq' & Hlist' & Hwr' & Hout').
    rewrite Hlist', app_nil_r, <-Hout.
    split_and!; try done; [congruence| |].
    + intros ->. simpl in Hpos. lia.
    + intros out Ho. rewrite (Hout' out Ho). apply foldl_hydrate_item.
  - simpl. rewrite !app_nil_r, <-Hout. split_and!; try done. intros out [= <-].
    destruct newVideos; [done|simpl in Hpos; lia].
Qed.

(** [readCsvFile] as a whole. *)
Lemma readCsvFile_run path w :
  readCsvFile path w =
  {| outcome :=
       match files w !! path with
       | None => Returned []
       | Some (Faulty e) =>
           if decide (code e = Some "ENOENT") then Returned [] else Thrown e
       | Some (Readable content) =>
           match parse content with
           | inl e => Thrown e
           | inr data => Returned data
           end
       end;
     world := w;
     trace := [ReadFile path] |}.
Proof.
  unfold readCsvFile. rewrite bind_run. unfold try_catch.
  rewrite bind_run. unfold fs_readFile. simpl.
  destruct (files w !! path) as [[content|e]|]; simpl.
  - by destruct (parse content).
  - destruct (decide (code e = Some "ENOENT")); done.
  - done.
Qed.

(** [main], stage by stage. *)
Lemma main_run fuel w :
  main fuel w =
  let r1 := readCsvFile filePath w in
  match outcome r1 with
  | Returned existingVideos =>
      let r2 := getNewVideos fuel channelId (list_to_set (ID <$> existingVideos)) (world r1) in
      match outcome r2 with
      | Returned newVideos =>
          let r3 := updateExistingVideos existingVideos (world r2) in
          match outcome r3 with
          | Returned updated =>
              let content := stringify (processedVideos (allVideos updated newVideos)) in
              {| outcome := Returned ();
                 world := world (fs_writeFile filePath content (world r3));
                 trace := trace r1 ++ trace r2 ++ trace r3 ++ [WriteFile filePath content] |}
          | Thrown e =>
              {| outcome := Returned (); world := world r3;
                 trace := trace r1 ++ trace r2 ++ trace r3 |}
          | OutOfFuel =>
              {| outcome := OutOfFuel; world := world r3;
                 trace := trace r1 ++ trace r2 ++ trace r3 |}
          end
      | Thrown e =>
          {| outcome := Returned (); world := world r2; trace := trace r1 ++ trace r2 |}
      | OutOfFuel =>
          {| outcome := OutOfFuel; world := world r2; trace := trace r1 ++ trace r2 |}
      end
  | Thrown e => {| outcome := Returned (); world := world r1; trace := trace r1 |}
  | OutOfFuel => {| outcome := OutOfFuel; world := world r1; trace := trace r1 |}
  end.
Proof.
  unfold main, try_catch. rewrite bind_run. cbv zeta.
  destruct (outcome (readCsvFile filePath w)) as [existingVideos|e|]; simpl;
    [|by rewrite app_nil_r|done].
  rewrite bind_run.
  destruct (outcome (getNewVideos _ _ _ _)) as [newVideos|e|]; simpl;
    [|by rewrite app_nil_r|done].
  rewrite bind_run.
  destruct (outcome (updateExistingVideos _ _)) as [updated|e|]; simpl;
    [|by rewrite app_nil_r|done].
  unfold fs_writeFile. destruct (write_faults _ !! filePath); simpl; [|done].
  by rewrite app_nil_r.
Qed.

(** *** Properties of the record-by-record merge *)

Lemma merge_record_app upd items1 items2 v :
  merge_record upd (items1 ++ items2) v = merge_record upd items2 (merge_record upd items1 v).
Proof. unfold merge_record. by rewrite foldl_app. Qed.

(** Items that do not apply, or that change nothing, leave the record alone. *)
Lemma merge_record_unchanged upd items v :
  (∀ item v', ID (upd item v') = ID v') →
  (∀ item, item ∈ items → video_id item = Some (ID v) → upd item v = v) →
  merge_record upd items v = v.
Proof.
  intros HID. unfold merge_record. induction items as [|item items IH]; intros Hitems; [done|].
  simpl. case_decide as Hid.
  - rewrite Hitems by (done || left). apply IH. intros. apply Hitems; [by right|done].
  - apply IH. intros. apply Hitems; [by right|done].
Qed.

Lemma merge_all_lookup upd items videos k v :
  videos !! k = Some v →
  merge_all upd items videos !! k =
  Some (if decide (findable videos k v) then merge_record upd items v else v).
Proof. intros Hk. unfold merge_all. by rewrite list_lookup_imap, Hk. Qed.

(** The refresher changes the two counts only. *)
Lemma merge_refresh_fields items v :
  let v' := merge_record refresh_record items v in
  ID v' = ID v ∧ Title v' = Title v ∧ Published_At v' = Published_At v
  ∧ Duration v' = Duration v.
Proof.
  unfold merge_record. revert v. induction items as [|item items IH]; intros v; [done|].
  simpl. destruct (IH (if decide (video_id item = Some (ID v))
                        then refresh_record item v else v)) as (-> & -> & -> & ->).
  case_decide; [|done]. unfold refresh_record. by destruct (statistics item).
Qed.

(** *** Claims about the Metadata Refresher *)

(** C5.  When [updateExistingVideos] returns, the result has the length of its
    argument and the same identifiers at the same positions, and a record
    whose identifier is the [id] of no item of any detail response is returned
    as it was. *)
Theorem refresher_frame videos w out :
  outcome (updateExistingVideos videos w) = Returned out →
  length out = length videos
  ∧ ID <$> out = ID <$> videos
  ∧ ∀ k v, videos !! k = Some v →
      (∀ item, item ∈ detail_items (trace (updateExistingVideos videos w)) →
               video_id item ≠ Some (ID v)) →
      out !! k = Some v.
Proof.
  intros Ho.
  destruct (updateExistingVideos_spec videos w) as (_ & _ & _ & _ & _ & Hout).
  rewrite (Hout out Ho). split_and!.
  - apply merge_all_length.
  - apply merge_all_IDs, refresh_record_ID.
  - intros k v Hk Habsent. rewrite (merge_all_lookup _ _ _ _ _ Hk).
    case_decide; [|done]. f_equal. apply merge_record_unchanged.
    + apply refresh_record_ID.
    + intros item Hin Hid. by destruct (Habsent item Hin).
Qed.

(** C2, amended.  When [updateExistingVideos] returns, take a record that is
    the first one with its identifier and the last item of the detail
    responses that has this identifier and a [statistics] part: the record
    returned at that position has [ViewCount] and [LikeCount] overwritten by
    [Number(...) || 0] of the item's counts. *)
Theorem refresher_overwrites_counts videos w out k v items1 item items2 st :
  outcome (updateExistingVideos videos w) = Returned out →
  videos !! k = Some v →
  findable videos k v →
  detail_items (trace (updateExistingVideos videos w)) = items1 ++ item :: items2 →
  video_id item = Some (ID v) →
  statistics item = Some st →
  (∀ item', item' ∈ items2 → video_id item' = Some (ID v) → statistics item' = None) →
  ∃ v', out !! k = Some v'
        ∧ ViewCount v' = Some (Number_or_0 (viewCount st))
        ∧ LikeCount v' = Some (Number_or_0 (likeCount st)).
Proof.
  intros Ho Hk Hfirst Hitems Hid Hst Hlater.
  destruct (updateExistingVideos_spec videos w) as (_ & _ & _ & _ & _ & Hout).
  rewrite (Hout out Ho), Hitems, (merge_all_lookup _ _ _ _ _ Hk).
  rewrite decide_True by done. eexists. split; [done|].
  (* the items before [item] keep the identifier *)
  rewrite (merge_record_app _ items1 (item :: items2)).
  destruct (merge_refresh_fields items1 v) as (HID & _).
  set (v1 := merge_record refresh_record items1 v) in *.
  (* [item] applies and sets the counts *)
  change (merge_record refresh_record (item :: items2) v1)
    with (merge_record refresh_record items2
            (if decide (video_id item = Some (ID v1)) then refresh_record item v1 else v1)).
  rewrite decide_True by congruence.
  (* the items after [item] change nothing *)
  rewrite merge_record_unchanged.
  - unfold refresh_record. by rewrite Hst.
  - apply refresh_record_ID.
  - intros item' Hin Hid'. rewrite refresh_record_ID, HID in Hid'.
    unfold refresh_record at 1. by rewrite (Hlater item' Hin Hid').
Qed.

(** *** Claims about the Incremental Fetcher *)

Lemma hydrate_item_without_contentDetails videos item :
  contentDetails item = None → hydrate_item videos item = videos.
Proof. intros Hcd. unfold hydrate_item. rewrite Hcd. by destruct (find_by_id _ _). Qed.

(** C10.  When [getNewVideos] returns, a record of the result for whose
    identifier every item of the detail responses lacks [contentDetails] has
    the empty [Duration] and no [ViewCount] and [LikeCount], whatever
    [statistics] those items carry. *)
Theorem hydration_needs_contentDetails fuel ch (known : gset string) w out v :
  outcome (getNewVideos fuel ch known w) = Returned out →
  v ∈ out →
  (∀ item, item ∈ detail_items (trace (getNewVideos fuel ch known w)) →
           video_id item = Some (ID v) → contentDetails item = None) →
  Duration v = EmptyString ∧ ViewCount v = None ∧ LikeCount v = None.
Proof.
  intros Ho Hin Hitems.
  destruct (getNewVideos_spec fuel ch known w) as (_ & _ & _ & _ & Hout).
  specialize (Hout out Ho). cbv zeta in Hout.
  set (newVideos := foldl _ _ _) in Hout.
  assert (provisional newVideos) as Hprov.
  { apply foldl_push_if_new. constructor. }
  apply list_elem_of_lookup in Hin as [k Hk].
  rewrite Hout in Hk. unfold merge_all in Hk.
  apply list_lookup_imap_Some in Hk as (v0 & Hk0 & ->).
  pose proof (proj1 (Forall_lookup _ _) Hprov k v0 Hk0) as Hv0.
  case_decide as Hf; [|done].
  rewrite merge_record_ID in Hitems by apply hydrate_record_ID.
  rewrite merge_record_unchanged; [done|apply hydrate_record_ID|].
  intros item Hitem Hid. unfold hydrate_record. by rewrite (Hitems item Hitem Hid).
Qed.

(** C7.  Every [videos.list] request of [getNewVideos] and of
    [updateExistingVideos] names at least 1 and at most 50 identifiers, and
    [getNewVideos] makes no such request when the listing yields no new
    record. *)
Theorem detail_requests_bounded fuel ch (known : gset string) videos w :
  Forall (λ ids, 0 < length ids ≤ 50)
         (detail_requests (trace (getNewVideos fuel ch known w)))
  ∧ Forall (λ ids, 0 < length ids ≤ 50)
           (detail_requests (trace (updateExistingVideos videos w)))
  ∧ (foldl (push_if_new known) [] (listed_items (trace (getNewVideos fuel ch known w))) = [] →
     detail_requests (trace (getNewVideos fuel ch known w)) = []).
Proof.
  destruct (getNewVideos_spec fuel ch known w) as (_ & Hnew & _ & Hnone & _).
  destruct (updateExistingVideos_spec videos w) as (_ & Hupd & _).
  done.
Qed.

(** *** Claims about loading and about failures *)

(** C8.  [readCsvFile] returns the empty sequence when the file does not
    exist, and throws the error of any other failure: a read error whose code
    is not ENOENT, or a parse error. *)
Theorem readCsvFile_tolerates_missing_file path w :
  (files w !! path = None → outcome (readCsvFile path w) = Returned [])
  ∧ (∀ e, files w !! path = Some (Faulty e) → code e ≠ Some "ENOENT" →
          outcome (readCsvFile path w) = Thrown e)
  ∧ (∀ content e, files w !! path = Some (Readable content) → parse content = inl e →
          outcome (readCsvFile path w) = Thrown e).
Proof.
  rewrite readCsvFile_run. simpl. split_and!.
  - by intros ->.
  - intros e -> Hcode. by rewrite decide_False.
  - by intros content e -> ->.
Qed.

(** C9.  If [readCsvFile], [getNewVideos] or [updateExistingVideos] throws
    during [main], then [main] writes nothing: its trace has no [writeFile]
    and every file is as it was before. *)
Theorem no_write_after_failure fuel w e :
  let r1 := readCsvFile filePath w in
  (outcome r1 = Thrown e
   ∨ ∃ existingVideos, outcome r1 = Returned existingVideos ∧
       let r2 := getNewVideos fuel channelId (list_to_set (ID <$> existingVideos)) (world r1) in
       (outcome r2 = Thrown e
        ∨ ∃ newVideos, outcome r2 = Returned newVideos ∧
            outcome (updateExistingVideos existingVideos (world r2)) = Thrown e)) →
  written (trace (main fuel w)) = [] ∧ files (world (main fuel w)) = files w.
Proof.
  intros r1 Hthrown. subst r1. rewrite main_run. cbv zeta in *.
  set (r1 := readCsvFile filePath w) in *.
  assert (world r1 = w ∧ written (trace r1) = []) as [Hw1 Ht1].
  { subst r1. by rewrite readCsvFile_run. }
  destruct Hthrown as [->|(existingVideos & -> & Hthrown)]; [by rewrite Hw1|].
  destruct (getNewVideos_spec fuel channelId (list_to_set (ID <$> existingVideos)) (world r1))
    as (Hf2 & _ & Ht2 & _).
  destruct Hthrown as [->|(newVideos & -> & ->)]; simpl.
  - rewrite written_app, Ht1, Ht2, Hf2, Hw1. done.
  - destruct (updateExistingVideos_spec existingVideos
        (world (getNewVideos fuel channelId (list_to_set (ID <$> existingVideos)) (world r1))))
      as (Hf3 & _ & _ & Ht3 & _).
    rewrite !written_app, Ht1, Ht2, Ht3, Hf3, Hf2, Hw1. done.
Qed.

(** *** Title normalisation *)

Implicit Types (s inner rest : jsstring) (c : N).
Implicit Types (l : list VideoRecord) (x y : VideoRecord).

Lemma unquoted_split s : s = unquoted_prefix s ++ after_unquoted s.
Proof. induction s as [|c s IH]; simpl; [done|]. case_decide; [done|]. simpl. by f_equal. Qed.

Lemma after_unquoted_length s : length (after_unquoted s) ≤ length s.
Proof. induction s as [|c s IH]; simpl; [done|]. case_decide; simpl; lia. Qed.

Lemma in_OneOf_DQUOTE c : in_charset (OneOf [DQUOTE]) c = bool_decide (c = DQUOTE).
Proof. simpl. apply bool_decide_ext, list_elem_of_singleton. Qed.

Lemma in_NoneOf_DQUOTE c : in_charset (NoneOf [DQUOTE]) c = bool_decide (c ≠ DQUOTE).
Proof. simpl. apply bool_decide_ext. by rewrite list_elem_of_singleton. Qed.

Lemma replace_all_cons r template c s :
  replace_all r template 0 (c :: s) =
  match exec r (c :: s) with
  | Some (rest, caps) =>
      expand template caps ++ replace_all r template (pred (length (c :: s) - length rest)) s
  | None => c :: replace_all r template 0 s
  end.
Proof. done. Qed.

(** Passing over the characters of a match. *)
Lemma replace_all_skip r template pre s :
  replace_all r template (length pre) (pre ++ s) = replace_all r template 0 s.
Proof. induction pre as [|c pre IH]; simpl; [by destruct s|done]. Qed.

Lemma exec_curly c s :
  exec curly_quote_re (c :: s) =
  if decide (c = LEFT_SQUOTE ∨ c = RIGHT_SQUOTE) then Some (s, []) else None.
Proof.
  unfold exec, curly_quote_re. cbn [rmatch in_charset].
  case_decide as Hc.
  - rewrite bool_decide_eq_true_2; [done|]. rewrite !elem_of_cons. tauto.
  - rewrite bool_decide_eq_false_2; [done|]. rewrite !elem_of_cons, elem_of_nil. tauto.
Qed.

(** Replacing curly quotes, character by character. *)
Lemma replace_curly s : replace curly_quote_re curly_quote_by s = spec_straighten s.
Proof.
  unfold replace, spec_straighten. induction s as [|c s IH]; [done|].
  rewrite replace_all_cons, exec_curly, fmap_cons, <-IH. unfold straighten.
  case_decide; [|done].
  replace (length (c :: s) - length s) with 1 by (simpl; lia). done.
Qed.

(** The greedy [[^Q]+] followed by a closing quote: it succeeds exactly when
    the run before the next double quote is not empty and a double quote
    follows it. *)
Lemma match_plus_closing {X} (k : jsstring → option X) s :
  k [] = None →
  (∀ c s', c ≠ DQUOTE → k (c :: s') = None) →
  match_plus (in_charset (NoneOf [DQUOTE])) s k
  = match unquoted_prefix s, after_unquoted s with
    | _ :: _, _ :: _ => k (after_unquoted s)
    | _, _ => None
    end.
Proof.
  intros Hnil Hother. induction s as [|c s IH]; [done|].
  cbn [match_plus unquoted_prefix after_unquoted]. rewrite in_NoneOf_DQUOTE.
  destruct (decide (c = DQUOTE)) as [->|Hc].
  - by rewrite bool_decide_eq_false_2 by (by intros []).
  - rewrite bool_decide_eq_true_2 by done. rewrite IH.
    destruct s as [|c' s']; [done|].
    cbn [unquoted_prefix after_unquoted].
    destruct (decide (c' = DQUOTE)) as [->|Hc'].
    + done.
    + rewrite (Hother c' s' Hc').
      destruct (after_unquoted s') as [|q rest]; [done|].
      by destruct (k (q :: rest)).
Qed.

Lemma after_unquoted_head s q rest : after_unquoted s = q :: rest → q = DQUOTE.
Proof.
  induction s as [|c s IH]; simpl; [done|]. case_decide; [congruence|done].
Qed.

Lemma exec_double_quoted s :
  exec double_quoted_re s =
  match s with
  | c :: s1 =>
      if decide (c = DQUOTE) then
        match unquoted_prefix s1, after_unquoted s1 with
        | _ :: _, _ :: rest => Some (rest, [unquoted_prefix s1])
        | _, _ => None
        end
      else None
  | [] => None
  end.
Proof.
  destruct s as [|c s1]; [done|].
  unfold exec, double_quoted_re. cbn [rmatch]. rewrite in_OneOf_DQUOTE.
  destruct (decide (c = DQUOTE)) as [->|Hc].
  - rewrite bool_decide_eq_true_2 by done.
    rewrite match_plus_closing; [|done|].
    + pose proof (unquoted_split s1) as Hsplit.
      destruct (unquoted_prefix s1) as [|c' inner] eqn:Hin; [done|].
      destruct (after_unquoted s1) as [|q rest] eqn:Hrest; [done|].
      rewrite (after_unquoted_head _ _ _ Hrest) in *.
      rewrite in_OneOf_DQUOTE, bool_decide_eq_true_2 by done.
      do 3 f_equal. simpl app. f_equal.
      rewrite Hsplit at 2. rewrite Hsplit at 1.
      rewrite length_app.
      replace (_ + _ - _) with (length (c' :: inner)) by (simpl; lia).
      by rewrite take_app_length.
    + intros c s' Hc. by rewrite in_OneOf_DQUOTE, bool_decide_eq_false_2.
  - by rewrite bool_decide_eq_false_2.
Qed.

Lemma unquoted_only s : after_unquoted s = [] → unquoted_prefix s = s.
Proof.
  induction s as [|c s IH]; simpl; [done|]. case_decide; [done|]. intros. f_equal. auto.
Qed.

(** Text without double quote is left alone. *)
Lemma replace_unquoted s :
  after_unquoted s = [] → replace_all double_quoted_re double_quoted_by 0 s = s.
Proof.
  induction s as [|c s IH]; [done|]. simpl after_unquoted. case_decide as Hc; [done|].
  intros Hs. rewrite replace_all_cons, exec_double_quoted, decide_False by done.
  by rewrite IH.
Qed.

Lemma requote_nonempty_open_spec s acc :
  requote_nonempty_open acc s =
  match after_unquoted s with
  | [] => DQUOTE :: acc ++ s
  | _ :: rest =>
      match acc ++ unquoted_prefix s with
      | [] => DQUOTE :: requote_nonempty_open [] rest
      | inner => APOSTROPHE :: inner ++ APOSTROPHE :: requote_nonempty rest
      end
  end.
Proof.
  revert acc. induction s as [|c s IH]; intros acc.
  - simpl. by rewrite app_nil_r.
  - cbn [requote_nonempty_open after_unquoted unquoted_prefix]. case_decide as Hc.
    + rewrite app_nil_r. by destruct acc.
    + rewrite IH. rewrite <-!app_assoc. simpl. done.
Qed.

(** The regular expression of line 173 and the one-pass rewriting agree. *)
Lemma replace_double_quoted s :
  replace double_quoted_re double_quoted_by s = requote_nonempty s.
Proof.
  unfold replace. remember (S (length s)) as n eqn:Hn.
  assert (length s < n) as Hlt by lia. clear Hn. revert s Hlt.
  induction n as [|n IH]; intros s Hlt; [lia|].
  destruct s as [|c s1]; [done|]. simpl in Hlt.
  rewrite replace_all_cons, exec_double_quoted. cbn [requote_nonempty].
  case_decide as Hc; [|by rewrite IH by lia]. subst c.
  rewrite requote_nonempty_open_spec. simpl app.
  pose proof (unquoted_split s1) as Hsplit.
  pose proof (after_unquoted_length s1) as Hlen.
  destruct (unquoted_prefix s1) as [|c' inner] eqn:Hin;
    destruct (after_unquoted s1) as [|q rest] eqn:Hrest.
  - by rewrite Hsplit.
  - rewrite (after_unquoted_head _ _ _ Hrest) in *. simpl in Hsplit.
    rewrite IH by lia. by rewrite Hsplit.
  - rewrite replace_unquoted by done. done.
  - rewrite (after_unquoted_head _ _ _ Hrest) in *. simpl in Hlen.
    assert (s1 = ((c' :: inner) ++ [DQUOTE]) ++ rest) as Hs1
      by (by rewrite <-app_assoc).
    assert (pred (S (length s1) - length rest)
            = length ((c' :: inner) ++ [DQUOTE])) as ->.
    { rewrite Hs1 at 1. rewrite (length_app _ rest). lia. }
    rewrite Hs1 at 1. rewrite replace_all_skip, IH by lia.
    unfold expand, double_quoted_by. simpl. by rewrite <-app_assoc.
Qed.

(** Title normalisation is the composition that the specification describes. *)
Lemma normalizeTitle_one_pass title : normalizeTitle title = normalize_one_pass title.
Proof.
  unfold normalizeTitle, normalize_one_pass. by rewrite replace_curly, replace_double_quoted.
Qed.

(** *** Sorting *)

Lemma SortCompare_pos x y :
  (0 < SortCompare x y)%Z ↔
  ∃ tx ty, Date_getTime (Published_At x) = Some tx
           ∧ Date_getTime (Published_At y) = Some ty ∧ (tx < ty)%Z.
Proof.
  unfold SortCompare, comparefn.
  destruct (Date_getTime (Published_At y)) as [ty|],
           (Date_getTime (Published_At x)) as [tx|]; simpl.
  - split; [intros; exists tx, ty; split_and!; [done..|lia]|].
    intros (? & ? & [= <-] & [= <-] & ?). lia.
  - split; [lia|]. by intros (? & ? & ? & _).
  - split; [lia|]. by intros (? & ? & _ & ? & _).
  - split; [lia|]. by intros (? & ? & ? & _).
Qed.

Lemma sort_insert_perm x l : sort_insert x l ≡ₚ x :: l.
Proof.
  induction l as [|y l IH]; simpl; [done|].
  case_decide; [|done]. rewrite IH. apply Permutation_swap.
Qed.

Lemma Array_sort_perm l : Array_sort l ≡ₚ l.
Proof.
  induction l as [|x l IH]; simpl; [done|].
  by rewrite sort_insert_perm, IH.
Qed.

Lemma sort_insert_published_at t x l :
  published_at t (sort_insert x l) = published_at t (x :: l).
Proof.
  unfold published_at. induction l as [|y l IH]; simpl; [done|].
  case_decide as Hc; [|done].
  apply SortCompare_pos in Hc as (tx & ty & Hx & Hy & Hlt).
  rewrite (filter_cons _ y), IH, !(filter_cons _ x), !(filter_cons _ y).
  repeat case_decide; try done; simplify_eq; lia.
Qed.

Lemma Array_sort_published_at t l : published_at t (Array_sort l) = published_at t l.
Proof.
  induction l as [|x l IH]; simpl; [done|].
  rewrite sort_insert_published_at. unfold published_at in *.
  by rewrite !(filter_cons _ x), IH.
Qed.

Lemma sort_insert_sorted x l :
  timely (x :: l) → StronglySorted not_later l → StronglySorted not_later (sort_insert x l).
Proof.
  intros Ht Hs. induction Hs as [|y l Hs IH Hy]; simpl.
  - by repeat constructor.
  - apply Forall_cons in Ht as [[tx Hx] Ht]. pose proof Ht as Ht'.
    apply Forall_cons in Ht' as [[ty Hty] Htl].
    case_decide as Hc.
    + apply SortCompare_pos in Hc as (tx' & ty' & Hx' & Hy' & Hlt).
      constructor.
      * apply IH. by constructor.
      * rewrite sort_insert_perm. constructor; [|done].
        intros ta tb Ha Hb.
        assert (ta = ty') by congruence. assert (tb = tx') by congruence. lia.
    + assert (not_later x y) as Hxy.
      { intros ta tb Ha Hb.
        destruct (decide (tb ≤ ta)%Z); [done|]. destruct Hc.
        apply SortCompare_pos. exists ta, tb. split_and!; [done..|lia]. }
      constructor; [by constructor|]. constructor; [done|].
      eapply Forall_impl; [exact Hy|]. intros z Hyz ta tb Ha Hb.
      specialize (Hxy _ _ Ha Hty). specialize (Hyz _ _ Hty Hb). lia.
Qed.

Lemma Array_sort_sorted l : timely l → StronglySorted not_later (Array_sort l).
Proof.
  induction l as [|x l IH]; intros Ht; simpl; [constructor|].
  apply sort_insert_sorted.
  - apply Forall_cons in Ht as [Hx Ht]. constructor; [done|].
    unfold timely. by rewrite Array_sort_perm.
  - apply IH. by apply Forall_cons in Ht as [_ ?].
Qed.

Lemma sorted_non_increasing l : StronglySorted not_later l → non_increasing l.
Proof.
  induction 1 as [|x l Hs IH Hx]; intros i j a b ta tb Hij Hi Hj Ha Hb.
  - done.
  - destruct j as [|j]; [lia|]. destruct i as [|i]; simpl in *.
    + simplify_eq. apply list_elem_of_lookup_2 in Hj.
      by apply (proj1 (Forall_forall _ _) Hx b Hj ta tb).
    + eapply (IH i j); eauto. lia.
Qed.

(** Two sorted lists with the same records, in which the records of each
    publication time stand in the same order, are equal. *)
Lemma sorted_stable_unique l1 l2 :
  timely l1 → l1 ≡ₚ l2 →
  StronglySorted not_later l1 → StronglySorted not_later l2 →
  (∀ t, published_at t l1 = published_at t l2) →
  l1 = l2.
Proof.
  revert l2. induction l1 as [|x l1 IH]; intros l2 Ht Hperm Hs1 Hs2 Hpub.
  - by apply Permutation_nil_l in Hperm.
  - destruct l2 as [|y l2]; [by apply Permutation_nil_r in Hperm|].
    apply Forall_cons in Ht as [[tx Hx] Ht].
    apply StronglySorted_inv in Hs1 as [Hs1 Hx1].
    apply StronglySorted_inv in Hs2 as [Hs2 Hy2].
    assert (x = y) as <-.
    { assert (y ∈ x :: l1) as Hy by (rewrite Hperm; left).
      assert (x ∈ y :: l2) as Hx' by (rewrite <-Hperm; left).
      assert (∃ ty, Date_getTime (Published_At y) = Some ty) as [ty Hty].
      { apply elem_of_cons in Hy as [->|Hy]; [by eauto|].
        by apply (proj1 (Forall_forall _ _) Ht y Hy). }
      assert (ty ≤ tx)%Z.
      { apply elem_of_cons in Hy as [->|Hy]; [assert (ty = tx) by congruence; lia|].
        by apply (proj1 (Forall_forall _ _) Hx1 y Hy tx ty). }
      assert (tx ≤ ty)%Z.
      { apply elem_of_cons in Hx' as [->|Hx']; [assert (ty = tx) by congruence; lia|].
        by apply (proj1 (Forall_forall _ _) Hy2 x Hx' ty tx). }
      assert (tx = ty) as -> by lia.
      specialize (Hpub ty). unfold published_at in Hpub.
      rewrite !filter_cons_True in Hpub by done. congruence. }
    f_equal. apply IH; [done|by eapply Permutation_cons_inv|done..|].
    intros t. specialize (Hpub t). unfold published_at in *.
    rewrite !(filter_cons _ x) in Hpub. case_decide; congruence.
Qed.

(** The contract of ECMAScript for a consistent comparison (a sorted
    permutation that keeps the order of equal elements) leaves one result
    only: that of [Array_sort]. *)
Lemma sort_contract_unique l l' :
  timely l → l' ≡ₚ l → StronglySorted not_later l' →
  (∀ t, published_at t l' = published_at t l) →
  l' = Array_sort l.
Proof.
  intros Ht Hperm Hs Hpub. apply sorted_stable_unique; [| | done | |].
  - unfold timely. by rewrite Hperm.
  - by rewrite Array_sort_perm.
  - by apply Array_sort_sorted.
  - intros t. by rewrite Array_sort_published_at.
Qed.

(** C4, amended.  When the publication date of every record parses, the
    merge of the refreshed and the new records is non-increasing in
    publication time, it is a permutation of the concatenation of the two
    sequences, and the records of any one publication time stand in the order
    they have in that concatenation (existing before new). *)
Theorem merge_sorted_and_stable updatedExistingVideos newVideos :
  timely (updatedExistingVideos ++ newVideos) →
  non_increasing (allVideos updatedExistingVideos newVideos)
  ∧ allVideos updatedExistingVideos newVideos ≡ₚ updatedExistingVideos ++ newVideos
  ∧ ∀ t, published_at t (allVideos updatedExistingVideos newVideos)
         = published_at t (updatedExistingVideos ++ newVideos).
Proof.
  intros Ht. unfold allVideos. split_and!.
  - by apply sorted_non_increasing, Array_sort_sorted.
  - apply Array_sort_perm.
  - intros t. apply Array_sort_published_at.
Qed.

(** *** The whole run *)

Lemma reconcile_run fuel w :
  reconcile fuel w =
  let r1 := readCsvFile filePath w in
  match outcome r1 with
  | Returned existingVideos =>
      let r2 := getNewVideos fuel channelId (list_to_set (ID <$> existingVideos)) (world r1) in
      match outcome r2 with
      | Returned newVideos =>
          let r3 := updateExistingVideos existingVideos (world r2) in
          {| outcome :=
               match outcome r3 with
               | Returned updated => Returned (processedVideos (allVideos updated newVideos))
               | Thrown e => Thrown e
               | OutOfFuel => OutOfFuel
               end;
             world := world r3;
             trace := trace r1 ++ trace r2 ++ trace r3 |}
      | Thrown e =>
          {| outcome := Thrown e; world := world r2; trace := trace r1 ++ trace r2 |}
      | OutOfFuel =>
          {| outcome := OutOfFuel; world := world r2; trace := trace r1 ++ trace r2 |}
      end
  | Thrown e => {| outcome := Thrown e; world := world r1; trace := trace r1 |}
  | OutOfFuel => {| outcome := OutOfFuel; world := world r1; trace := trace r1 |}
  end.
Proof.
  unfold reconcile. rewrite bind_run. cbv zeta.
  destruct (outcome (readCsvFile filePath w)) as [existingVideos|e|]; simpl; [|done..].
  rewrite bind_run.
  destruct (outcome (getNewVideos _ _ _ _)) as [newVideos|e|]; simpl; [|done..].
  rewrite bind_run.
  destruct (outcome (updateExistingVideos _ _)) as [updated|e|]; simpl;
    [by rewrite app_nil_r|done..].
Qed.

(** [main] saves what [reconcile] returns, and nothing when it does not
    return. *)
Lemma main_reconcile fuel w :
  main fuel w =
  let r := reconcile fuel w in
  match outcome r with
  | Returned processed =>
      {| outcome := Returned ();
         world := world (fs_writeFile filePath (stringify processed) (world r));
         trace := trace r ++ [WriteFile filePath (stringify processed)] |}
  | Thrown e => {| outcome := Returned (); world := world r; trace := trace r |}
  | OutOfFuel => {| outcome := OutOfFuel; world := world r; trace := trace r |}
  end.
Proof.
  rewrite main_run, reconcile_run. cbv zeta.
  destruct (outcome (readCsvFile filePath w)) as [existingVideos|e|]; [|done..].
  destruct (outcome (getNewVideos _ _ _ _)) as [newVideos|e|]; [|done..].
  destruct (outcome (updateExistingVideos _ _)) as [updated|e|]; simpl; [|done..].
  by rewrite <-!app_assoc.
Qed.

(** [reconcile] writes nothing. *)
Lemma reconcile_no_write fuel w :
  written (trace (reconcile fuel w)) = [] ∧ files (world (reconcile fuel w)) = files w.
Proof.
  rewrite reconcile_run. cbv zeta.
  set (r1 := readCsvFile filePath w).
  assert (world r1 = w ∧ written (trace r1) = []) as [Hw1 Ht1].
  { subst r1. by rewrite readCsvFile_run. }
  destruct (outcome r1) as [existingVideos|e|]; [|by rewrite Hw1..].
  destruct (getNewVideos_spec fuel channelId (list_to_set (ID <$> existingVideos)) (world r1))
    as (Hf2 & _ & Ht2 & _).
  set (r2 := getNewVideos _ _ _ _) in *.
  destruct (outcome r2) as [newVideos|e|]; simpl;
    [|by rewrite written_app, Ht1, Ht2, Hf2, Hw1..].
  destruct (updateExistingVideos_spec existingVideos (world r2)) as (Hf3 & _ & _ & Ht3 & _).
  by rewrite !written_app, Ht1, Ht2, Ht3, Hf3, Hf2, Hw1.
Qed.

Lemma main_written fuel w :
  written (trace (main fuel w)) =
  match outcome (reconcile fuel w) with
  | Returned processed => [stringify processed]
  | _ => []
  end.
Proof.
  rewrite main_reconcile. cbv zeta.
  destruct (reconcile_no_write fuel w) as [Hwr _].
  destruct (outcome (reconcile fuel w)); simpl; [|done..].
  by rewrite written_app, Hwr.
Qed.

Lemma processedVideos_IDs videos : ID <$> processedVideos videos = ID <$> videos.
Proof. unfold processedVideos. rewrite <-list_fmap_compose. done. Qed.

(** The identifiers of what [reconcile] returns: those of the local dataset
    and the listed ones that are not among them. *)
Lemma reconcile_IDs fuel w existingVideos processed :
  outcome (readCsvFile filePath w) = Returned existingVideos →
  outcome (reconcile fuel w) = Returned processed →
  ID <$> processed ≡ₚ
    (ID <$> existingVideos)
    ++ filter (λ i, i ∉ ID <$> existingVideos)
              (listed_ids (listed_items (trace (reconcile fuel w)))).
Proof.
  intros Hread. rewrite reconcile_run. cbv zeta. rewrite Hread.
  assert (listed_items (trace (readCsvFile filePath w)) = []) as Hl1
    by (by rewrite readCsvFile_run).
  set (w1 := world (readCsvFile filePath w)).
  set (known := list_to_set (ID <$> existingVideos) : gset string).
  destruct (getNewVideos_spec fuel channelId known w1) as (_ & _ & _ & _ & Hout2).
  set (r2 := getNewVideos fuel channelId known w1) in *.
  destruct (outcome r2) as [newVideos|e|]; [|done..].
  destruct (updateExistingVideos_spec existingVideos (world r2))
    as (_ & _ & Hl3 & _ & _ & Hout3).
  set (r3 := updateExistingVideos existingVideos (world r2)) in *.
  simpl. destruct (outcome r3) as [updated|e|]; [|done..].
  intros [= <-]. rewrite !listed_items_app, Hl1, Hl3, app_nil_r. simpl.
  rewrite processedVideos_IDs. unfold allVideos. rewrite Array_sort_perm, fmap_app.
  rewrite (Hout3 updated eq_refl), (Hout2 newVideos eq_refl).
  rewrite !merge_all_IDs by (apply refresh_record_ID || apply hydrate_record_ID).
  rewrite (proj1 (foldl_push_if_new known (listed_items (trace r2)) [])). simpl.
  f_equiv. apply reflexive_eq, list_filter_iff. intros i. subst known.
  by rewrite elem_of_list_to_set.
Qed.

(** C1, amended.  When the identifiers of the local dataset are pairwise
    distinct and no identifier that is missing from the local dataset occurs
    twice in the remote listing, the dataset that one run writes holds every
    identifier once: those of the local dataset and those of the listing,
    an identifier that is in both not being added again. *)
Theorem output_identifiers_unique fuel w existingVideos processed :
  outcome (readCsvFile filePath w) = Returned existingVideos →
  outcome (reconcile fuel w) = Returned processed →
  NoDup (ID <$> existingVideos) →
  NoDup (filter (λ i, i ∉ ID <$> existingVideos)
                (listed_ids (listed_items (trace (reconcile fuel w))))) →
  written (trace (main fuel w)) = [stringify processed]
  ∧ NoDup (ID <$> processed)
  ∧ ∀ i, i ∈ ID <$> processed ↔
         i ∈ ID <$> existingVideos
         ∨ i ∈ listed_ids (listed_items (trace (reconcile fuel w))).
Proof.
  intros Hread Hrec Hlocal Hremote.
  pose proof (reconcile_IDs fuel w existingVideos processed Hread Hrec) as HIDs.
  split_and!.
  - by rewrite main_written, Hrec.
  - rewrite HIDs. apply NoDup_app. split_and!; [done| |done].
    intros i Hi [Hni _]%list_elem_of_filter. by destruct Hni.
  - intros i. rewrite HIDs, elem_of_app, list_elem_of_filter.
    destruct (decide (i ∈ ID <$> existingVideos)); tauto.
Qed.

(** *** Sorting what is in order

    A list whose dates parse and which is in order is the one result that the
    contract of [sort] allows for it. *)

Lemma Array_sort_sorted_fixed l :
  timely l → StronglySorted not_later l → Array_sort l = l.
Proof. intros Ht Hs. symmetry. by apply sort_contract_unique. Qed.

Lemma timely_processedVideos l : timely (processedVideos l) ↔ timely l.
Proof. unfold timely, processedVideos. by rewrite Forall_fmap. Qed.

Lemma processedVideos_sorted l :
  StronglySorted not_later l → StronglySorted not_later (processedVideos l).
Proof.
  unfold processedVideos. apply StronglySorted_fmap. intros x y Hxy. exact Hxy.
Qed.

(** What a run saves is in order when its dates parse. *)
Lemma saved_sorted updated newVideos :
  timely (processedVideos (allVideos updated newVideos)) →
  StronglySorted not_later (processedVideos (allVideos updated newVideos)).
Proof.
  intros Ht. apply processedVideos_sorted, Array_sort_sorted.
  apply (proj1 (timely_processedVideos _)) in Ht. unfold allVideos, timely in Ht.
  by rewrite Array_sort_perm in Ht.
Qed.

Lemma processedVideos_fixed l :
  Forall (λ v, normalizeTitle (Title v) = Title v) l → processedVideos l = l.
Proof.
  induction 1 as [|v l Hv Hl IH]; [done|].
  change (processedVideos (v :: l))
    with ({| ID := ID v; Title := normalizeTitle (Title v);
             Published_At := Published_At v; Duration := Duration v;
             ViewCount := ViewCount v; LikeCount := LikeCount v |} :: processedVideos l).
  rewrite IH, Hv. by destruct v.
Qed.

(** *** The last matching item decides *)

Lemma merge_record_decided upd items v item :
  (∀ it v', ID (upd it v') = ID v') →
  item ∈ items →
  video_id item = Some (ID v) →
  (∀ item', item' ∈ items → video_id item' = Some (ID v) → item' = item) →
  ∃ v', ID v' = ID v ∧ merge_record upd items v = upd item v'.
Proof.
  intros HID. induction items as [|last items IH] using rev_ind; intros Hin Hid Hsame.
  - by apply elem_of_nil in Hin.
  - rewrite merge_record_app.
    change (merge_record upd [last] (merge_record upd items v))
      with (if decide (video_id last = Some (ID (merge_record upd items v)))
            then upd last (merge_record upd items v) else merge_record upd items v).
    rewrite merge_record_ID by done.
    case_decide as Hlast.
    + rewrite (Hsame last) by (done || (apply elem_of_app; right; by left)).
      exists (merge_record upd items v). split; [by apply merge_record_ID|done].
    + apply IH; [|done|].
      * apply elem_of_app in Hin as [Hin|Hin]; [done|].
        apply list_elem_of_singleton in Hin as ->. done.
      * intros item' Hin'. apply Hsame, elem_of_app. by left.
Qed.

(** [getNewVideos], phase by phase. *)
Lemma getNewVideos_run fuel ch (known : gset string) w :
  getNewVideos fuel ch known w =
  let rs := search_pages fuel ch known None [] w in
  match outcome rs with
  | Returned newVideos =>
      if decide (0 < length newVideos) then
        let rh := for_each_chunk (length newVideos) hydrate_item 0 newVideos (world rs) in
        {| outcome := outcome rh; world := world rh; trace := trace rs ++ trace rh |}
      else {| outcome := Returned newVideos; world := world rs; trace := trace rs |}
  | Thrown e => {| outcome := Thrown e; world := world rs; trace := trace rs |}
  | OutOfFuel => {| outcome := OutOfFuel; world := world rs; trace := trace rs |}
  end.
Proof.
  unfold getNewVideos. rewrite try_catch_rethrow, bind_run. cbv zeta.
  destruct (outcome (search_pages _ _ _ _ _ _)) as [newVideos|e|]; [|done..].
  case_decide; [done|]. simpl. by rewrite app_nil_r.
Qed.

(** *** Fuel *)

(** A listing that has ended within the fuel ends the same way with more. *)
Lemma search_pages_more_fuel fuel extra ch (known : gset string) tok acc w :
  outcome (search_pages fuel ch known tok acc w) ≠ OutOfFuel →
  search_pages (fuel + extra) ch known tok acc w = search_pages fuel ch known tok acc w.
Proof.
  revert tok acc w. induction fuel as [|fuel IH]; intros tok acc w; [done|].
  change (S fuel + extra) with (S (fuel + extra)). rewrite !search_pages_step. cbv zeta.
  destruct (search_list _ _ _).1 as [e|response]; [done|].
  destruct (truthy_string _) as [next|]; [|done].
  simpl. intros Hfuel. by rewrite IH.
Qed.

(** Only the listing loop can use up the fuel of [getNewVideos]. *)
Lemma getNewVideos_out_of_fuel fuel ch (known : gset string) w :
  outcome (getNewVideos fuel ch known w) = OutOfFuel ↔
  outcome (search_pages fuel ch known None [] w) = OutOfFuel.
Proof.
  rewrite getNewVideos_run. cbv zeta.
  destruct (outcome (search_pages _ _ _ _ _ _)) as [newVideos|e|] eqn:E; [|done..].
  case_decide; simpl; [|done]. split; [|done]. intros Hfuel.
  by apply for_each_chunk_terminates in Hfuel; [|apply hydrate_item_length|lia].
Qed.

(** *** The paths at which writes fail

    No stage changes them. *)

Lemma for_each_chunk_write_faults step fuel i videos w :
  write_faults (world (for_each_chunk fuel step i videos w)) = write_faults w.
Proof.
  revert i videos w. induction fuel as [|fuel IH]; intros i videos w.
  - simpl. by case_decide.
  - destruct (decide (i < length videos)) as [Hi|Hi].
    + rewrite for_each_chunk_step by done. cbv zeta.
      destruct (videos_list _ _) as [[e|response] st]; simpl; [done|].
      by rewrite IH.
    + by rewrite for_each_chunk_done.
Qed.

Lemma search_pages_write_faults ch (known : gset string) fuel tok acc w :
  write_faults (world (search_pages fuel ch known tok acc w)) = write_faults w.
Proof.
  revert tok acc w. induction fuel as [|fuel IH]; intros tok acc w; [done|].
  rewrite search_pages_step. cbv zeta.
  destruct (search_list _ _ _) as [[e|response] st]; simpl; [done|].
  destruct (truthy_string _) as [next|]; [by rewrite IH|done].
Qed.

Lemma getNewVideos_write_faults fuel ch (known : gset string) w :
  write_faults (world (getNewVideos fuel ch known w)) = write_faults w.
Proof.
  rewrite getNewVideos_run. cbv zeta.
  pose proof (search_pages_write_faults ch known fuel None [] w) as Hs.
  destruct (outcome (search_pages _ _ _ _ _ _)) as [newVideos|e|]; [|done..].
  case_decide; simpl; [|done]. by rewrite for_each_chunk_write_faults.
Qed.

Lemma updateExistingVideos_write_faults videos w :
  write_faults (world (updateExistingVideos videos w)) = write_faults w.
Proof.
  unfold updateExistingVideos. rewrite try_catch_rethrow.
  apply for_each_chunk_write_faults.
Qed.

Lemma reconcile_write_faults fuel w :
  write_faults (world (reconcile fuel w)) = write_faults w.
Proof.
  rewrite reconcile_run. cbv zeta.
  set (r1 := readCsvFile filePath w).
  assert (world r1 = w) as Hw1 by (subst r1; by rewrite readCsvFile_run).
  destruct (outcome r1) as [existingVideos|e|]; [|by rewrite Hw1..].
  pose proof (getNewVideos_write_faults fuel channelId
                (list_to_set (ID <$> existingVideos)) (world r1)) as H2.
  set (r2 := getNewVideos _ _ _ _) in *.
  destruct (outcome r2) as [newVideos|e|]; simpl; [|by rewrite H2, Hw1..].
  by rewrite updateExistingVideos_write_faults, H2, Hw1.
Qed.

(** *** Runs against an unchanging remote *)

Section fixed_remote.
Variable listing : option string → JSError + SearchListResponse.
Variable catalog : string → option Video.
Hypothesis remote : answers_from listing catalog.

(** The listing loop sees the same pages whatever is already known. *)
Lemma search_pages_fixed fuel ch ch' (known known' : gset string) tok acc acc' w w' :
  listed_items (trace (search_pages fuel ch known tok acc w))
    = listed_items (trace (search_pages fuel ch' known' tok acc' w'))
  ∧ (∀ out, outcome (search_pages fuel ch known tok acc w) = Returned out →
       ∃ out', outcome (search_pages fuel ch' known' tok acc' w') = Returned out').
Proof.
  destruct remote as (Hsearch & _ & _).
  revert tok acc acc' w w'. induction fuel as [|fuel IH]; intros tok acc acc' w w'.
  - done.
  - rewrite !search_pages_step. cbv zeta. rewrite !Hsearch.
    destruct (listing tok) as [e|response]; [done|].
    destruct (truthy_string (nextPageToken response)) as [next|]; simpl.
    + edestruct IH as [Hl Ho]. unfold listed_items in *. simpl.
      rewrite Hl. split; [done|]. exact Ho.
    + split; [done|]. eauto.
Qed.

(** The chunk loop asks for every record once and is answered from the
    catalogue. *)
Lemma for_each_chunk_fixed (step : list VideoRecord → Video → list VideoRecord)
    (fuel i : nat) videos w :
  (∀ videos item, ID <$> step videos item = ID <$> videos) →
  length videos ≤ i + 50 * fuel →
  let r := for_each_chunk fuel step i videos w in
  (∃ out, outcome r = Returned out)
  ∧ detail_items (trace r) = omap catalog (ID <$> drop i videos).
Proof.
  destruct remote as (_ & Hvideos & _). intros Hstep.
  assert (∀ items vs, ID <$> foldl step vs items = ID <$> vs) as Hfold.
  { induction items as [|it items IHi]; intros vs; simpl; [done|].
    by rewrite IHi, Hstep. }
  revert i videos w. induction fuel as [|fuel IH]; intros i videos w Hlen.
  - rewrite for_each_chunk_done by lia. simpl. rewrite drop_ge by lia. eauto.
  - destruct (decide (i < length videos)) as [Hi|Hi].
    + rewrite for_each_chunk_step by done. cbv zeta.
      destruct (Hvideos (ID <$> take 50 (drop i videos)) (api w))
        as (response & Hresp & Hitems).
      rewrite Hresp. simpl.
      set (videos' := forEach_item step response videos).
      assert (ID <$> videos' = ID <$> videos) as HIDs by apply Hfold.
      assert (length videos' = length videos) as Hlen'.
      { by rewrite <-(length_fmap ID), HIDs, length_fmap. }
      edestruct (IH (i + 50) videos') as [Ho Hd]; [lia|].
      split; [exact Ho|].
      change (detail_items (VideosList ?ids (inr response) :: ?t))
        with (default [] (video_items response) ++ detail_items t).
      rewrite Hd, Hitems. rewrite (fmap_drop ID (i + 50) videos'), HIDs, <-fmap_drop.
      rewrite <-omap_app, <-fmap_app. do 2 f_equal.
      rewrite <-drop_drop. apply take_drop.
    + rewrite for_each_chunk_done by done. simpl. rewrite drop_ge by lia. eauto.
Qed.

Lemma refresh_item_IDs videos item : ID <$> refresh_item videos item = ID <$> videos.
Proof. rewrite refresh_item_merge_step. apply merge_step_IDs, refresh_record_ID. Qed.

Lemma hydrate_item_IDs videos item : ID <$> hydrate_item videos item = ID <$> videos.
Proof. rewrite hydrate_item_merge_step. apply merge_step_IDs, hydrate_record_ID. Qed.

(** The refresher returns, with every record merged with the catalogue. *)
Lemma updateExistingVideos_fixed videos w :
  outcome (updateExistingVideos videos w) =
  Returned (merge_all refresh_record (omap catalog (ID <$> videos)) videos).
Proof.
  destruct (updateExistingVideos_spec videos w) as (_ & _ & _ & _ & _ & Hout).
  revert Hout. unfold updateExistingVideos. rewrite try_catch_rethrow. intros Hout.
  destruct (for_each_chunk_fixed refresh_item (length videos) 0 videos w)
    as [[out Ho] Hd]; [apply refresh_item_IDs|lia|].
  rewrite Ho. f_equal. rewrite (Hout out Ho), Hd. by rewrite drop_0.
Qed.

(** The fetcher hydrates its provisional records from the catalogue. *)
Lemma getNewVideos_fixed fuel ch (known : gset string) w out :
  outcome (getNewVideos fuel ch known w) = Returned out →
  let newVideos :=
    foldl (push_if_new known) [] (listed_items (trace (getNewVideos fuel ch known w))) in
  out = merge_all hydrate_record (omap catalog (ID <$> newVideos)) newVideos.
Proof.
  intros Ho. destruct (getNewVideos_spec fuel ch known w) as (_ & _ & _ & _ & Hout).
  cbv zeta in *. rewrite (Hout out Ho). f_equal. clear Hout.
  revert Ho. rewrite getNewVideos_run. cbv zeta.
  destruct (search_pages_spec ch known fuel None [] w) as (_ & _ & Hsi & _ & Hso).
  set (rs := search_pages fuel ch known None [] w) in *.
  destruct (outcome rs) as [newVideos|e|]; [|done..].
  specialize (Hso _ eq_refl).
  destruct (decide (0 < length newVideos)) as [Hpos|Hpos]; simpl.
  - destruct (for_each_chunk_spec hydrate_item (length newVideos) 0 newVideos (world rs))
      as (_ & _ & Hl & _).
    destruct (for_each_chunk_fixed hydrate_item (length newVideos) 0 newVideos (world rs))
      as [_ Hd]; [apply hydrate_item_IDs|lia|].
    intros _. rewrite detail_items_app, listed_items_app, Hsi, Hl, Hd, app_nil_r, <-Hso.
    by rewrite drop_0.
  - intros _. rewrite Hsi, <-Hso. destruct newVideos; [done|simpl in Hpos; lia].
Qed.

Lemma NoDup_findable videos k v :
  NoDup (ID <$> videos) → videos !! k = Some v → findable videos k v.
Proof.
  intros Hnd Hk (v' & Hid & Hin)%list_elem_of_fmap.
  apply list_elem_of_lookup in Hin as [j Hj]. apply lookup_take_Some in Hj as [Hj Hlt].
  assert (j = k); [|lia].
  apply (NoDup_lookup (ID <$> videos) j k (ID v)); [done|..].
  - by rewrite list_lookup_fmap, Hj, Hid.
  - by rewrite list_lookup_fmap, Hk.
Qed.

(** After a merge with the catalogue, the counts are the catalogue's. *)
Lemma merge_all_settled upd videos :
  (∀ it v, ID (upd it v) = ID v) →
  (∀ item st v, statistics item = Some st → is_Some (catalog (ID v)) →
     catalog (ID v) = Some item →
     ViewCount (upd item v) = Some (Number_or_0 (viewCount st))
     ∧ LikeCount (upd item v) = Some (Number_or_0 (likeCount st))) →
  NoDup (ID <$> videos) →
  Forall (settled catalog) (merge_all upd (omap catalog (ID <$> videos)) videos).
Proof.
  destruct remote as (_ & _ & Hcat). intros HID Hupd Hnd.
  apply Forall_lookup. intros k v' Hk.
  unfold merge_all in Hk. apply list_lookup_imap_Some in Hk as (v & Hk & ->).
  rewrite decide_True by (by apply NoDup_findable).
  intros item st Hitem Hst. rewrite merge_record_ID in Hitem by done.
  destruct (merge_record_decided upd (omap catalog (ID <$> videos)) v item)
    as (v0 & Hv0 & ->); [done|..].
  - apply list_elem_of_omap. exists (ID v). split; [|done].
    apply list_elem_of_fmap. exists v. split; [done|]. by eapply list_elem_of_lookup_2.
  - by apply Hcat.
  - intros item' (j & _ & Hj)%list_elem_of_omap Hid'.
    pose proof (Hcat j item' Hj) as Hidj. assert (j = ID v) as -> by congruence. congruence.
  - apply Hupd; [done|rewrite Hv0; eauto|by rewrite Hv0].
Qed.

Lemma getNewVideos_listing fuel ch (known : gset string) w out :
  outcome (getNewVideos fuel ch known w) = Returned out →
  listed_items (trace (getNewVideos fuel ch known w))
    = listed_items (trace (search_pages fuel ch known None [] w))
  ∧ ∃ newVideos, outcome (search_pages fuel ch known None [] w) = Returned newVideos.
Proof.
  rewrite getNewVideos_run. cbv zeta.
  set (rs := search_pages fuel ch known None [] w).
  destruct (outcome rs) as [newVideos|e|]; [|done..].
  case_decide; simpl; [|by eauto].
  destruct (for_each_chunk_spec hydrate_item (length newVideos) 0 newVideos (world rs))
    as (_ & _ & Hl & _).
  intros _. rewrite listed_items_app, Hl, app_nil_r. eauto.
Qed.

(** With everything listed already known, the fetcher returns nothing. *)
Lemma getNewVideos_nothing_new fuel ch ch' (known known' : gset string) w w' out :
  outcome (getNewVideos fuel ch known w) = Returned out →
  (∀ i, i ∈ listed_ids (listed_items (trace (getNewVideos fuel ch known w))) →
        i ∈ known') →
  outcome (getNewVideos fuel ch' known' w') = Returned [].
Proof.
  intros Ho Hknown. destruct (getNewVideos_listing _ _ _ _ _ Ho) as [Hl [newVideos Hs]].
  rewrite Hl in Hknown.
  destruct (search_pages_fixed fuel ch ch' known known' None [] [] w w') as [Hl' Ho'].
  destruct (Ho' _ Hs) as [out' Hout'].
  destruct (search_pages_spec ch' known' fuel None [] w') as (_ & _ & _ & _ & Hspec).
  pose proof (Hspec out' Hout') as Hout.
  assert (out' = []) as ->.
  { apply (fmap_nil_inv ID). rewrite Hout.
    rewrite (proj1 (foldl_push_if_new known' _ [])). simpl.
    apply elem_of_nil_inv. intros i [Hni Hi]%list_elem_of_filter.
    apply Hni, Hknown. by rewrite Hl'. }
  rewrite getNewVideos_run. cbv zeta. rewrite Hout'. by rewrite decide_False by (simpl; lia).
Qed.

Lemma settled_processedVideos l :
  Forall (settled catalog) l → Forall (settled catalog) (processedVideos l).
Proof. unfold processedVideos. intros Hl. apply Forall_fmap. by eapply Forall_impl. Qed.

(** Refreshing what was read back gives the saved records again. *)
Lemma refresh_read_back dataset loaded :
  Forall (settled catalog) dataset →
  Forall2 (read_back catalog) dataset loaded →
  NoDup (ID <$> dataset) →
  merge_all refresh_record (omap catalog (ID <$> loaded)) loaded = dataset.
Proof.
  destruct remote as (_ & _ & Hcat). intros Hs Hrb Hnd.
  assert (ID <$> loaded = ID <$> dataset) as HIDs.
  { clear Hs Hnd. induction Hrb as [|v v' l l' (HID & _) _ IH]; [done|].
    by rewrite !fmap_cons, IH, HID. }
  apply list_eq. intros k. unfold merge_all. rewrite list_lookup_imap.
  destruct (loaded !! k) as [v'|] eqn:Hk'.
  2:{ simpl. symmetry. apply lookup_ge_None. apply lookup_ge_None in Hk'.
      by rewrite (Forall2_length _ _ _ Hrb). }
  destruct (Forall2_lookup_r _ _ _ _ _ Hrb Hk') as (v & Hk & HID & HT & HP & HD & Hcounts).
  simpl. f_equal.
  rewrite decide_True by (apply NoDup_findable; [by rewrite HIDs|done]).
  destruct (merge_refresh_fields (omap catalog (ID <$> loaded)) v') as (HID' & HT' & HP' & HD').
  pose proof (proj1 (Forall_lookup _ _) Hs k v Hk) as Hsettled.
  destruct (catalog (ID v)) as [item|] eqn:Hitem.
  - destruct (statistics item) as [st|] eqn:Hst.
    + destruct (merge_record_decided refresh_record (omap catalog (ID <$> loaded)) v' item)
        as (v0 & _ & Hv0).
      * apply refresh_record_ID.
      * apply list_elem_of_omap. exists (ID v). split; [|done].
        rewrite HIDs. apply list_elem_of_fmap. exists v. split; [done|].
        by eapply list_elem_of_lookup_2.
      * rewrite HID. by apply Hcat.
      * intros item' (j & _ & Hj)%list_elem_of_omap Hid'.
        pose proof (Hcat j item' Hj) as Hidj. assert (j = ID v) as -> by congruence.
        congruence.
      * destruct (Hsettled item st Hitem Hst) as [Hviews Hlikes].
        set (out := merge_record refresh_record _ v') in *.
        assert (ViewCount out = ViewCount v ∧ LikeCount out = LikeCount v) as [Hv Hl].
        { rewrite Hv0, Hviews, Hlikes. unfold refresh_record. by rewrite Hst. }
        destruct out, v; simpl in *. congruence.
    + rewrite merge_record_unchanged.
      * destruct Hcounts as [Hv Hl]; [intros item' [= <-]; done|].
        destruct v', v; simpl in *. congruence.
      * apply refresh_record_ID.
      * intros item' (j & _ & Hj)%list_elem_of_omap Hid'.
        pose proof (Hcat j item' Hj) as Hidj. assert (j = ID v) as -> by congruence.
        unfold refresh_record. assert (item' = item) as -> by congruence. by rewrite Hst.
  - rewrite merge_record_unchanged.
    + destruct Hcounts as [Hv Hl]; [intros item' [=]|].
      destruct v', v; simpl in *. congruence.
    + apply refresh_record_ID.
    + intros item' (j & _ & Hj)%list_elem_of_omap Hid'.
      pose proof (Hcat j item' Hj) as Hidj. assert (j = ID v) as -> by congruence.
      congruence.
Qed.

(** C3, amended.  Against an unchanging remote whose catalogue entries with
    statistics also have contentDetails, let a first run return a dataset
    with pairwise distinct identifiers, with dates that parse and with titles
    that normalisation leaves untouched, and let it save this dataset.  Let
    the parser read the saved file back with the texts of every record, and
    with the counts of the records that the catalogue has no statistics for.
    Then a second run, started where the first one ended, writes exactly the
    content that the first one wrote. *)
Theorem second_run_writes_the_same fuel w dataset loaded :
  (∀ i item, catalog i = Some item →
     is_Some (statistics item) → is_Some (contentDetails item)) →
  outcome (reconcile fuel w) = Returned dataset →
  write_faults w !! filePath = None →
  parse (stringify dataset) = inr loaded →
  Forall2 (read_back catalog) dataset loaded →
  NoDup (ID <$> dataset) →
  timely dataset →
  Forall (λ v, normalizeTitle (Title v) = Title v) dataset →
  written (trace (main fuel w)) = [stringify dataset]
  ∧ written (trace (main fuel (world (main fuel w)))) = [stringify dataset].
Proof.
  intros Hwhole Hrec Hwrite Hparse Hback Hnd Hdates Htitles.
  split; [by rewrite main_written, Hrec|].
  rewrite main_written.
  assert (outcome (reconcile fuel (world (main fuel w))) = Returned dataset) as ->; [|done].
  (* the world after the first run *)
  rewrite main_reconcile. cbv zeta. rewrite Hrec. cbn [world].
  unfold fs_writeFile at 1. rewrite reconcile_write_faults, Hwrite. cbn [world].
  set (w1 := {| api := _; files := _; write_faults := _ |}).
  (* the first run, stage by stage *)
  pose proof (reconcile_IDs fuel w) as HIDs.
  revert Hrec HIDs. rewrite reconcile_run. cbv zeta.
  destruct (outcome (readCsvFile filePath w)) as [existingVideos|e|] eqn:Hread; [|done..].
  set (known := list_to_set (ID <$> existingVideos) : gset string).
  set (wa := world (readCsvFile filePath w)).
  pose proof (getNewVideos_fixed fuel channelId known wa) as Hnew.
  destruct (outcome (getNewVideos fuel channelId known wa)) as [newVideos|e|] eqn:Hget;
    [|done..].
  specialize (Hnew newVideos eq_refl). cbv zeta in Hnew.
  set (rb := getNewVideos fuel channelId known wa) in *.
  simpl. rewrite updateExistingVideos_fixed.
  assert (listed_items (trace (readCsvFile filePath w)) = []) as Hl1
    by (by rewrite readCsvFile_run).
  destruct (updateExistingVideos_spec existingVideos (world rb)) as (_ & _ & Hl3 & _).
  rewrite !listed_items_app, Hl1, Hl3, app_nil_r. simpl.
  set (updated := merge_all refresh_record _ existingVideos).
  set (provisionals := foldl (push_if_new known) [] (listed_items (trace rb))) in *.
  intros [= Hdataset] HIDs. specialize (HIDs _ _ eq_refl eq_refl).
  (* identifiers *)
  assert (ID <$> provisionals
          = filter (λ i, i ∉ ID <$> existingVideos) (listed_ids (listed_items (trace rb))))
    as Hprov.
  { unfold provisionals. rewrite (proj1 (foldl_push_if_new known _ [])). simpl.
    apply list_filter_iff. intros i. subst known. by rewrite elem_of_list_to_set. }
  rewrite <-Hprov, Hdataset in HIDs.
  assert (NoDup (ID <$> existingVideos) ∧ NoDup (ID <$> provisionals)) as [Hnd1 Hnd2].
  { rewrite HIDs in Hnd. apply NoDup_app in Hnd. tauto. }
  assert (ID <$> loaded = ID <$> dataset) as Hloaded.
  { clear -Hback. induction Hback as [|v v' l l' (HID & _) _ IH]; [done|].
    by rewrite !fmap_cons, IH, HID. }
  (* counts *)
  assert (Forall (settled catalog) dataset) as Hsettled.
  { rewrite <-Hdataset. apply settled_processedVideos. unfold allVideos.
    rewrite Array_sort_perm. apply Forall_app. split.
    - apply merge_all_settled; [apply refresh_record_ID| |done].
      intros item st v Hst _ _. unfold refresh_record. by rewrite Hst.
    - rewrite Hnew. apply merge_all_settled; [apply hydrate_record_ID| |done].
      intros item st v Hst _ Hcat. unfold hydrate_record.
      destruct (Hwhole _ _ Hcat) as [cd ->]; [by eauto|]. by rewrite Hst. }
  (* the second run *)
  rewrite reconcile_run. cbv zeta. rewrite readCsvFile_run.
  cbn [outcome world trace]. subst w1. cbn [files].
  rewrite lookup_insert_eq, Hparse.
  set (w1 := {| api := _; files := _; write_faults := _ |}).
  rewrite (getNewVideos_nothing_new fuel channelId channelId known
             (list_to_set (ID <$> loaded)) wa w1 newVideos Hget).
  2:{ intros i Hi. apply elem_of_list_to_set. rewrite Hloaded, HIDs.
      apply elem_of_app. destruct (decide (i ∈ ID <$> existingVideos)); [by left|right].
      rewrite Hprov. by apply list_elem_of_filter. }
  simpl. rewrite updateExistingVideos_fixed. f_equal.
  rewrite (refresh_read_back dataset loaded) by done. unfold allVideos. rewrite app_nil_r.
  (* the dataset is in order: the sort leaves it *)
  rewrite Array_sort_sorted_fixed; [by apply processedVideos_fixed|done|].
  rewrite <-Hdataset. apply saved_sorted. by rewrite Hdataset.
Qed.

End fixed_remote.

(** * Further properties *)

(** *** More on the merge *)

(** X8.  Whatever the dates, parsing or not, the merge of lines 165-166
    neither loses nor repeats a record: it is a permutation of the refreshed
    records followed by the new ones, and as long as the two together. *)
Theorem merge_keeps_every_record updatedExistingVideos newVideos :
  allVideos updatedExistingVideos newVideos ≡ₚ updatedExistingVideos ++ newVideos
  ∧ length (allVideos updatedExistingVideos newVideos)
    = length updatedExistingVideos + length newVideos.
Proof.
  unfold allVideos.
  assert (∀ l, Array_sort l ≡ₚ l) as Hperm.
  { induction l as [|x l IH]; [done|].
    change (Array_sort (x :: l)) with (sort_insert x (Array_sort l)).
    by rewrite sort_insert_perm, IH. }
  split; [apply Hperm|]. by rewrite Hperm, length_app.
Qed.

(** X9.  When every publication date parses, the dataset that a run saves
    is in the order in which the sort of the next run leaves it: sorting it
    again, with nothing new, changes nothing. *)
Theorem saved_order_is_kept updatedExistingVideos newVideos :
  timely (updatedExistingVideos ++ newVideos) →
  let saved := processedVideos (allVideos updatedExistingVideos newVideos) in
  allVideos saved [] = saved.
Proof.
  intros Ht saved. unfold allVideos at 1. rewrite app_nil_r.
  assert (timely saved) as Hsaved.
  { apply timely_processedVideos. unfold allVideos, timely. by rewrite Array_sort_perm. }
  apply Array_sort_sorted_fixed; [done|]. by apply saved_sorted.
Qed.

(** *** More on the two merges by identifier *)

(** X5.  When [updateExistingVideos] returns, every record, returned by the
    provider or not, has kept its position, identifier, title, publication
    date and duration. *)
Theorem refresher_changes_counts_only videos w out k v :
  outcome (updateExistingVideos videos w) = Returned out →
  videos !! k = Some v →
  ∃ v', out !! k = Some v'
        ∧ ID v' = ID v ∧ Title v' = Title v
        ∧ Published_At v' = Published_At v ∧ Duration v' = Duration v.
Proof.
  intros Ho Hk.
  destruct (updateExistingVideos_spec videos w) as (_ & _ & _ & _ & _ & Hout).
  rewrite (Hout out Ho), (merge_all_lookup _ _ _ _ _ Hk).
  eexists. split; [done|]. case_decide; [|done]. apply merge_refresh_fields.
Qed.

Lemma merge_hydrate_fields items v :
  let v' := merge_record hydrate_record items v in
  ID v' = ID v ∧ Title v' = Title v ∧ Published_At v' = Published_At v.
Proof.
  unfold merge_record. revert v. induction items as [|item items IH]; intros v; [done|].
  simpl. destruct (IH (if decide (video_id item = Some (ID v))
                        then hydrate_record item v else v)) as (-> & -> & ->).
  case_decide; [|done]. unfold hydrate_record. by destruct (contentDetails item).
Qed.

Lemma foldl_push_if_new_fields (known : gset string) results acc :
  listed_fields <$> foldl (push_if_new known) acc results
  = (listed_fields <$> acc) ++ omap (taken_from known) results.
Proof.
  revert acc. induction results as [|item results IH]; intros acc.
  - simpl. by rewrite app_nil_r.
  - simpl. rewrite IH. unfold push_if_new, taken_from.
    destruct (truthy_string (result_id item ≫= videoId)) as [vid|]; simpl; [|done].
    case_decide; [done|]. by rewrite fmap_app, <-app_assoc.
Qed.

(** Hydration changes neither identifier nor title nor date. *)
Lemma merge_all_hydrate_fields items videos :
  listed_fields <$> merge_all hydrate_record items videos = listed_fields <$> videos.
Proof.
  unfold merge_all. apply list_eq. intros k.
  rewrite !list_lookup_fmap, list_lookup_imap.
  destruct (videos !! k) as [v|]; [|done]. simpl. f_equal.
  case_decide; [|done]. unfold listed_fields.
  by destruct (merge_hydrate_fields items v) as (-> & -> & ->).
Qed.

(** X2.  The records that [getNewVideos] returns are, in listing order, the
    listed items whose [videoId] is not empty and not known, each with the
    title and the date of its snippet, empty when missing; hydration changes
    none of the three. *)
Theorem getNewVideos_takes_listed_items fuel ch (known : gset string) w out :
  outcome (getNewVideos fuel ch known w) = Returned out →
  listed_fields <$> out
  = omap (taken_from known) (listed_items (trace (getNewVideos fuel ch known w))).
Proof.
  intros Ho. destruct (getNewVideos_spec fuel ch known w) as (_ & _ & _ & _ & Hout).
  rewrite (Hout out Ho). cbv zeta. rewrite merge_all_hydrate_fields.
  by rewrite (foldl_push_if_new_fields known _ []).
Qed.

(** X1.  No record that [getNewVideos] returns has a known identifier or the
    empty identifier. *)
Theorem getNewVideos_excludes_known fuel ch (known : gset string) w out v :
  outcome (getNewVideos fuel ch known w) = Returned out →
  v ∈ out →
  (ID v ∉ known) ∧ ID v ≠ EmptyString.
Proof.
  intros Ho Hv.
  assert (listed_fields <$> out
          = omap (taken_from known) (listed_items (trace (getNewVideos fuel ch known w))))
    as Hfields.
  { destruct (getNewVideos_spec fuel ch known w) as (_ & _ & _ & _ & Hout).
    rewrite (Hout out Ho). cbv zeta. rewrite merge_all_hydrate_fields.
    by rewrite (foldl_push_if_new_fields known _ []). }
  assert (listed_fields v ∈ (listed_fields <$> out)) as Hin
    by (apply list_elem_of_fmap; eauto).
  rewrite Hfields in Hin. apply list_elem_of_omap in Hin as (item & _ & Htaken).
  unfold taken_from in Htaken.
  destruct (truthy_string (result_id item ≫= videoId)) as [vid|] eqn:Hvid; [|done].
  simpl in Htaken. case_decide as Hknown; [done|].
  injection Htaken as <- _ _. split; [done|].
  intros ->. unfold truthy_string in Hvid.
  by destruct (result_id item ≫= videoId) as [[|]|].
Qed.

(** X4.  When [getNewVideos] returns, take a record that is the first one
    with its identifier and the last item of the detail responses that has
    this identifier and a [contentDetails] part: the record has the duration
    of that item, empty when missing, and [Number(...) || 0] of its counts,
    also when the item has no [statistics]. *)
Theorem hydration_fills_record fuel ch (known : gset string) w out k v
    items1 item items2 cd :
  outcome (getNewVideos fuel ch known w) = Returned out →
  out !! k = Some v →
  findable out k v →
  detail_items (trace (getNewVideos fuel ch known w)) = items1 ++ item :: items2 →
  video_id item = Some (ID v) →
  contentDetails item = Some cd →
  (∀ item', item' ∈ items2 → video_id item' = Some (ID v) →
            contentDetails item' = None) →
  Duration v = default EmptyString (duration cd)
  ∧ ViewCount v = Some (Number_or_0 (statistics item ≫= viewCount))
  ∧ LikeCount v = Some (Number_or_0 (statistics item ≫= likeCount)).
Proof.
  intros Ho Hk Hfirst Hitems Hid Hcd Hlater.
  destruct (getNewVideos_spec fuel ch known w) as (_ & _ & _ & _ & Hout).
  specialize (Hout out Ho). cbv zeta in Hout. rewrite Hitems in Hout.
  set (newVideos := foldl _ _ _) in Hout.
  assert (ID <$> out = ID <$> newVideos) as HIDs.
  { rewrite Hout. apply merge_all_IDs, hydrate_record_ID. }
  rewrite Hout in Hk. unfold merge_all in Hk.
  apply list_lookup_imap_Some in Hk as (v0 & Hk0 & Hv).
  assert (ID v = ID v0) as Hv0.
  { rewrite Hv. case_decide; [|done]. apply merge_record_ID, hydrate_record_ID. }
  rewrite decide_True in Hv by (by eapply findable_IDs).
  rewrite (merge_record_app _ items1 (item :: items2)) in Hv.
  pose proof (merge_record_ID hydrate_record hydrate_record_ID items1 v0) as HID1.
  set (v1 := merge_record hydrate_record items1 v0) in *.
  change (merge_record hydrate_record (item :: items2) v1)
    with (merge_record hydrate_record items2
            (if decide (video_id item = Some (ID v1)) then hydrate_record item v1 else v1))
    in Hv.
  rewrite decide_True in Hv by congruence.
  rewrite merge_record_unchanged in Hv.
  - rewrite Hv. unfold hydrate_record. by rewrite Hcd.
  - apply hydrate_record_ID.
  - intros item' Hin Hid'. rewrite hydrate_record_ID, HID1, <-Hv0 in Hid'.
    unfold hydrate_record at 1. by rewrite (Hlater item' Hin Hid').
Qed.

(** *** Calls, one after the other *)

Lemma search_calls_app (t1 t2 : list Event) :
  search_calls (t1 ++ t2) = search_calls t1 ++ search_calls t2.
Proof. apply bind_app. Qed.

Lemma search_calls_cons ch tok result (t : list Event) :
  search_calls (SearchList ch tok result :: t) = (ch, tok, result) :: search_calls t.
Proof. done. Qed.

Lemma search_pages_calls fuel ch (known : gset string) tok acc w :
  let r := search_pages fuel ch known tok acc w in
  follows_tokens ch tok (search_calls (trace r))
  ∧ length (search_calls (trace r)) ≤ fuel
  ∧ ∀ out, outcome r = Returned out →
      ∃ calls tok' response,
        search_calls (trace r) = calls ++ [(ch, tok', inr response)]
        ∧ truthy_string (nextPageToken response) = None.
Proof.
  revert tok acc w. induction fuel as [|fuel IH]; intros tok acc w.
  - simpl. split_and!; done.
  - rewrite search_pages_step. cbv zeta.
    destruct (search_list _ _ _) as [[e|response] st]; cbn [fst snd trace outcome].
    { rewrite search_calls_cons. change (search_calls [])
        with (@nil (string * option string * (JSError + SearchListResponse))).
      split; [done|]. split; [simpl; lia|done]. }
    rewrite search_calls_cons. cbn [follows_tokens length].
    destruct (truthy_string (nextPageToken response)) as [next|] eqn:Hnext.
    + edestruct (IH (Some next)) as (Hchain & Hlen & Hlast).
      split; [done|]. split; [apply le_n_S, Hlen|].
      intros out Ho. destruct (Hlast out Ho) as (calls & tok' & resp' & -> & Hnone).
      exists ((ch, tok, inr response) :: calls), tok', resp'. done.
    + change (search_calls [])
        with (@nil (string * option string * (JSError + SearchListResponse))).
      split; [done|]. split; [simpl; lia|].
      intros out _. by exists [], tok, response.
Qed.

Lemma for_each_chunk_no_search step fuel i videos w :
  search_calls (trace (for_each_chunk fuel step i videos w)) = [].
Proof.
  revert i videos w. induction fuel as [|fuel IH]; intros i videos w.
  - simpl. by case_decide.
  - destruct (decide (i < length videos)) as [Hi|Hi].
    + rewrite for_each_chunk_step by done. cbv zeta.
      destruct (videos_list _ _) as [[e|response] st]; simpl; [done|]. apply IH.
    + by rewrite for_each_chunk_done.
Qed.

(** X3.  [getNewVideos] asks for the pages of its channel one after the
    other: the first request has no page token, each further one has the
    non-empty [nextPageToken] of the response before it, and no request
    follows a failure or a response without such a token; when it returns,
    the last response had none. *)
Theorem getNewVideos_follows_tokens fuel ch (known : gset string) w :
  let r := getNewVideos fuel ch known w in
  follows_tokens ch None (search_calls (trace r))
  ∧ length (search_calls (trace r)) ≤ fuel
  ∧ ∀ out, outcome r = Returned out →
      ∃ calls tok response,
        search_calls (trace r) = calls ++ [(ch, tok, inr response)]
        ∧ truthy_string (nextPageToken response) = None.
Proof.
  cbv zeta. rewrite getNewVideos_run. cbv zeta.
  destruct (search_pages_calls fuel ch known None [] w) as (Hchain & Hlen & Hlast).
  set (rs := search_pages fuel ch known None [] w) in *.
  destruct (outcome rs) as [newVideos|e|] eqn:Hrs; [|done..].
  case_decide; simpl; [|by eauto].
  rewrite search_calls_app, for_each_chunk_no_search, app_nil_r.
  split_and!; [done..|]. intros out _. by apply (Hlast newVideos).
Qed.

(** *** Failures *)

Lemma search_pages_stops_at_failure fuel ch (known : gset string) tok acc w :
  stops_at_failure (search_pages fuel ch known tok acc w).
Proof.
  unfold stops_at_failure.
  revert tok acc w. induction fuel as [|fuel IH]; intros tok acc w; [done|].
  rewrite search_pages_step. cbv zeta.
  destruct (search_list _ _ _) as [[e|response] st]; simpl.
  - by exists [], (SearchList ch tok (inl e)).
  - destruct (truthy_string _) as [next|]; [|done].
    specialize (IH (Some next)
      (foldl (push_if_new known) acc (default [] (search_items response)))
      {| api := st; files := files w; write_faults := write_faults w |}).
    destruct (outcome (search_pages _ _ _ _ _ _)) as [out|e|]; simpl; [done| |done].
    destruct IH as (before & ev & -> & Hev & Hbefore).
    by exists (SearchList ch tok (inr response) :: before), ev.
Qed.

Lemma for_each_chunk_stops_at_failure step fuel i videos w :
  stops_at_failure (for_each_chunk fuel step i videos w).
Proof.
  unfold stops_at_failure.
  revert i videos w. induction fuel as [|fuel IH]; intros i videos w.
  - simpl. by case_decide.
  - destruct (decide (i < length videos)) as [Hi|Hi].
    + rewrite for_each_chunk_step by done. cbv zeta.
      destruct (videos_list _ _) as [[e|response] st]; simpl.
      * by exists [], (VideosList (ID <$> take 50 (drop i videos)) (inl e)).
      * specialize (IH (i + 50) (forEach_item step response videos)
                       {| api := st; files := files w; write_faults := write_faults w |}).
        destruct (outcome (for_each_chunk _ _ _ _ _)) as [out|e|]; simpl; [done| |done].
        destruct IH as (before & ev & -> & Hev & Hbefore).
        by exists (VideosList (ID <$> take 50 (drop i videos)) (inr response) :: before), ev.
    + by rewrite for_each_chunk_done.
Qed.

Lemma getNewVideos_stops_at_failure fuel ch (known : gset string) w :
  stops_at_failure (getNewVideos fuel ch known w).
Proof.
  rewrite getNewVideos_run. cbv zeta.
  pose proof (search_pages_stops_at_failure fuel ch known None [] w) as Hs.
  unfold stops_at_failure in *.
  set (rs := search_pages fuel ch known None [] w) in *.
  destruct (outcome rs) as [newVideos|e|] eqn:Hrs; [|done..].
  case_decide; [|done]. simpl.
  pose proof (for_each_chunk_stops_at_failure hydrate_item (length newVideos) 0
                newVideos (world rs)) as Hh.
  unfold stops_at_failure in Hh.
  destruct (outcome (for_each_chunk _ _ _ _ _)) as [out|e|].
  - by rewrite omap_app, Hs, Hh.
  - destruct Hh as (before & ev & -> & Hev & Hbefore).
    exists (trace rs ++ before), ev. rewrite app_assoc. split_and!; [done..|].
    by rewrite omap_app, Hs, Hbefore.
  - by rewrite omap_app, Hs, Hh.
Qed.

Lemma updateExistingVideos_stops_at_failure videos w :
  stops_at_failure (updateExistingVideos videos w).
Proof.
  unfold updateExistingVideos. rewrite try_catch_rethrow.
  apply for_each_chunk_stops_at_failure.
Qed.

(** X7.  [getNewVideos] and [updateExistingVideos] throw exactly when an API
    call fails: the failed call is their last call, its error is the error
    thrown, and every call before it succeeded. *)
Theorem api_failure_propagates fuel ch (known : gset string) videos w :
  stops_at_failure (getNewVideos fuel ch known w)
  ∧ stops_at_failure (updateExistingVideos videos w).
Proof.
  split; [apply getNewVideos_stops_at_failure|apply updateExistingVideos_stops_at_failure].
Qed.

(** *** Batches *)

Lemma ceil_div_50_step (n i : nat) :
  i < n → ceil_div_50 (n - i) = S (ceil_div_50 (n - (i + 50))).
Proof.
  intros Hi. unfold ceil_div_50. destruct (decide (n - i ≤ 50)) as [Hle|Hgt].
  - replace (n - (i + 50) + 49) with 49 by lia. rewrite (Nat.div_small 49 50) by lia.
    symmetry. apply (Nat.div_unique _ _ 1 (n - i - 1)); lia.
  - replace (n - i + 49) with ((n - (i + 50) + 49) + 1 * 50) by lia.
    rewrite Nat.div_add by lia. lia.
Qed.

Lemma ceil_div_50_sum (a b : nat) :
  ceil_div_50 (a + b) ≤ ceil_div_50 a + ceil_div_50 b ≤ ceil_div_50 (a + b) + 1.
Proof.
  unfold ceil_div_50.
  pose proof (Nat.div_mod_eq (a + 49) 50). pose proof (Nat.mod_upper_bound (a + 49) 50).
  pose proof (Nat.div_mod_eq (b + 49) 50). pose proof (Nat.mod_upper_bound (b + 49) 50).
  pose proof (Nat.div_mod_eq (a + b + 49) 50).
  pose proof (Nat.mod_upper_bound (a + b + 49) 50).
  lia.
Qed.

Lemma detail_requests_cons ids result (t : list Event) :
  detail_requests (VideosList ids result :: t) = ids :: detail_requests t.
Proof. done. Qed.

(** The requests of the chunk loop: the [j]-th names the records from
    [i + 50 j] on, 50 at most; when the loop returns they are
    [Math.ceil] of a fiftieth of the records in number and name every record
    from [i] on once, in order. *)
Lemma for_each_chunk_requests (step : list VideoRecord → Video → list VideoRecord)
    (fuel i : nat) videos w :
  (∀ videos item, ID <$> step videos item = ID <$> videos) →
  let r := for_each_chunk fuel step i videos w in
  (∀ j ids, detail_requests (trace r) !! j = Some ids →
            ids = take 50 (drop (i + 50 * j) (ID <$> videos)))
  ∧ ∀ out, outcome r = Returned out →
      length (detail_requests (trace r)) = ceil_div_50 (length videos - i)
      ∧ mjoin (detail_requests (trace r)) = drop i (ID <$> videos).
Proof.
  intros Hstep.
  assert (∀ items vs, ID <$> foldl step vs items = ID <$> vs) as Hfold.
  { induction items as [|it items IHi]; intros vs; simpl; [done|].
    by rewrite IHi, Hstep. }
  revert i videos w. induction fuel as [|fuel IH]; intros i videos w.
  - simpl. case_decide as Hi; simpl; [done|]. split; [done|]. intros out _.
    replace (length videos - i) with 0 by lia. split; [done|].
    rewrite drop_ge; [done|]. rewrite length_fmap. lia.
  - destruct (decide (i < length videos)) as [Hi|Hi].
    + rewrite for_each_chunk_step by done. cbv zeta.
      destruct (videos_list _ _) as [[e|response] st]; cbn [fst snd trace outcome].
      * rewrite detail_requests_cons. split; [|done].
        intros [|j] ids; [|done]. intros [= <-].
        by rewrite Nat.mul_0_r, Nat.add_0_r, fmap_take, fmap_drop.
      * set (videos' := forEach_item step response videos).
        assert (ID <$> videos' = ID <$> videos) as HIDs by apply Hfold.
        assert (length videos' = length videos) as Hlen.
        { by rewrite <-(length_fmap ID), HIDs, length_fmap. }
        edestruct (IH (i + 50) videos') as [Hreq Hret].
        rewrite detail_requests_cons. split.
        -- intros [|j] ids.
           ++ intros [= <-]. by rewrite Nat.mul_0_r, Nat.add_0_r, fmap_take, fmap_drop.
           ++ intros Hj. rewrite (Hreq j ids Hj), HIDs. do 2 f_equal. lia.
        -- intros out Ho. destruct (Hret out Ho) as [Hcount Hjoin].
           split.
           ++ cbn [length]. rewrite Hcount, Hlen. symmetry. by apply ceil_div_50_step.
           ++ change (mjoin (?a :: ?b)) with (a ++ mjoin b).
              rewrite Hjoin, HIDs, fmap_take, fmap_drop, <-drop_drop. apply take_drop.
    + rewrite for_each_chunk_done by done. simpl. split; [done|]. intros out _.
      replace (length videos - i) with 0 by lia. split; [done|].
      rewrite drop_ge; [done|]. rewrite length_fmap. lia.
Qed.

Lemma updateExistingVideos_requests videos w out :
  outcome (updateExistingVideos videos w) = Returned out →
  let requests := detail_requests (trace (updateExistingVideos videos w)) in
  mjoin requests = ID <$> videos
  ∧ length requests = ceil_div_50 (length videos)
  ∧ ∀ j ids, requests !! j = Some ids → ids = take 50 (drop (50 * j) (ID <$> videos)).
Proof.
  revert out.
  unfold updateExistingVideos. rewrite try_catch_rethrow. intros out Ho. cbv zeta.
  destruct (for_each_chunk_requests refresh_item (length videos) 0 videos w
              refresh_item_IDs) as [Hreq Hret].
  destruct (Hret out Ho) as [Hcount Hjoin].
  rewrite Hcount, Hjoin, Nat.sub_0_r. split_and!; [done..|]. exact Hreq.
Qed.

Lemma getNewVideos_requests fuel ch (known : gset string) w out :
  outcome (getNewVideos fuel ch known w) = Returned out →
  let requests := detail_requests (trace (getNewVideos fuel ch known w)) in
  mjoin requests = ID <$> out
  ∧ length requests = ceil_div_50 (length out)
  ∧ ∀ j ids, requests !! j = Some ids → ids = take 50 (drop (50 * j) (ID <$> out)).
Proof.
  revert out.
  intros out Ho. cbv zeta.
  destruct (getNewVideos_spec fuel ch known w) as (_ & _ & _ & _ & Hout).
  pose proof (Hout out Ho) as Hmerge. cbv zeta in Hmerge.
  assert (ID <$> out = ID <$> foldl (push_if_new known) []
                         (listed_items (trace (getNewVideos fuel ch known w)))) as HIDs.
  { rewrite Hmerge at 1. apply merge_all_IDs, hydrate_record_ID. }
  assert (length out = length (foldl (push_if_new known) []
                         (listed_items (trace (getNewVideos fuel ch known w))))) as Hlen.
  { by rewrite <-(length_fmap ID), HIDs, length_fmap. }
  clear Hmerge Hout. revert Ho HIDs Hlen. rewrite getNewVideos_run. cbv zeta.
  destruct (search_pages_spec ch known fuel None [] w) as (_ & Hsr & _ & _ & Hso).
  set (rs := search_pages fuel ch known None [] w) in *.
  destruct (outcome rs) as [newVideos|e|]; [|done..].
  specialize (Hso _ eq_refl).
  destruct (decide (0 < length newVideos)) as [Hpos|Hpos]; cbn [outcome trace].
  + destruct (for_each_chunk_spec hydrate_item (length newVideos) 0 newVideos (world rs))
      as (_ & _ & Hl & _).
    destruct (for_each_chunk_requests hydrate_item (length newVideos) 0 newVideos
                (world rs) hydrate_item_IDs) as [Hreq Hret].
    intros Ho. destruct (Hret out Ho) as [Hcount Hjoin].
    rewrite listed_items_app, Hl, app_nil_r, <-Hso, detail_requests_app, Hsr.
    intros HIDs Hlen. cbn [app]. rewrite Hcount, Hjoin, Nat.sub_0_r, HIDs, Hlen.
    split_and!; [done..|]. exact Hreq.
  + intros [= <-]. rewrite Hsr. intros _ _.
    destruct newVideos; [done|simpl in Hpos; lia].
Qed.

(** X6.  When [updateExistingVideos] or [getNewVideos] returns, its detail
    requests name every record once and in order: request [j] names the
    records from position [50 j] on, 50 at most, and there are
    [Math.ceil(n / 50)] requests for [n] records. *)
Theorem detail_requests_cover_the_records fuel ch (known : gset string) videos w :
  (∀ out, outcome (updateExistingVideos videos w) = Returned out →
     let requests := detail_requests (trace (updateExistingVideos videos w)) in
     mjoin requests = ID <$> videos
     ∧ length requests = ceil_div_50 (length videos)
     ∧ ∀ j ids, requests !! j = Some ids → ids = take 50 (drop (50 * j) (ID <$> videos)))
  ∧ (∀ out, outcome (getNewVideos fuel ch known w) = Returned out →
     let requests := detail_requests (trace (getNewVideos fuel ch known w)) in
     mjoin requests = ID <$> out
     ∧ length requests = ceil_div_50 (length out)
     ∧ ∀ j ids, requests !! j = Some ids → ids = take 50 (drop (50 * j) (ID <$> out))).
Proof.
  split; intros out; [apply updateExistingVideos_requests|apply getNewVideos_requests].
Qed.

(** *** More on title normalisation *)

(** The one-pass rewriting changes double quotes only, and only into
    apostrophes. *)
Lemma requote_nonempty_chars s :
  Forall2 (λ c c', c' = c ∨ (c = DQUOTE ∧ c' = APOSTROPHE)) s (requote_nonempty s)
  ∧ ∀ acc, Forall (λ c, c ≠ DQUOTE) acc →
      Forall2 (λ c c', c' = c ∨ (c = DQUOTE ∧ c' = APOSTROPHE))
              (DQUOTE :: acc ++ s) (requote_nonempty_open acc s).
Proof.
  assert (∀ l : jsstring,
            Forall2 (λ c c', c' = c ∨ (c = DQUOTE ∧ c' = APOSTROPHE)) l l) as Hrefl.
  { intros l. apply Forall2_same_length_lookup. split; [done|].
    intros i c c' Hc Hc'. left. congruence. }
  induction s as [|c s [IH1 IH2]].
  - split; [constructor|]. intros acc _. simpl. rewrite app_nil_r. apply Hrefl.
  - split.
    + cbn [requote_nonempty]. case_decide as Hc.
      * subst c. apply (IH2 []). constructor.
      * constructor; [by left|done].
    + intros acc Hacc. cbn [requote_nonempty_open]. case_decide as Hc.
      * subst c. destruct acc as [|a acc].
        -- simpl. constructor; [by left|]. apply (IH2 []). constructor.
        -- constructor; [by right|].
           apply Forall2_app; [apply Hrefl|]. constructor; [by right|done].
      * replace (DQUOTE :: acc ++ c :: s) with (DQUOTE :: (acc ++ [c]) ++ s)
          by (by rewrite <-app_assoc).
        apply IH2. apply Forall_app. split; [done|]. by constructor.
Qed.

Lemma normalised_chars title :
  Forall2 normalised_char (he_decode title) (normalizeTitle title).
Proof.
  rewrite normalizeTitle_one_pass. unfold normalize_one_pass, spec_straighten.
  set (s := he_decode title).
  destruct (requote_nonempty_chars (straighten <$> s)) as [Hre _].
  apply Forall2_fmap_l in Hre.
  eapply Forall2_impl; [exact Hre|].
  intros c c' [->|[Hq ->]]; [by left|]. right. split; [|done].
  revert Hq. unfold straighten. case_decide as Hc; [|done].
  intros Hq. by compute in Hq.
Qed.

(** X10.  Normalisation after decoding works character by character: the
    normalised title is as long as the decoded one, and at every position a
    curly single quote has become an apostrophe, a double quote has stayed or
    become an apostrophe, and any other character has stayed. *)
Theorem normalizeTitle_char_by_char title :
  length (normalizeTitle title) = length (he_decode title)
  ∧ Forall2 normalised_char (he_decode title) (normalizeTitle title).
Proof.
  split; [|apply normalised_chars].
  symmetry. eapply Forall2_length, normalised_chars.
Qed.

(** X11.  No curly single quote (U+2018, U+2019) is left in a normalised
    title, whatever the decoder returns. *)
Theorem normalizeTitle_no_curly_quote title :
  Forall (λ c, c ≠ LEFT_SQUOTE ∧ c ≠ RIGHT_SQUOTE) (normalizeTitle title).
Proof.
  pose proof (normalised_chars title) as Hall.
  apply Forall_lookup. intros i c Hi.
  destruct (Forall2_lookup_r _ _ _ _ _ Hall Hi) as (c0 & _ & [->|[_ ->]]).
  - unfold straighten. case_decide as Hc0; [by compute|]. tauto.
  - by compute.
Qed.

(** X12.  When the decoded title has no double quote and no curly single
    quote, the normalised title is the decoded title. *)
Theorem normalizeTitle_plain title :
  Forall (λ c, c ≠ DQUOTE ∧ c ≠ LEFT_SQUOTE ∧ c ≠ RIGHT_SQUOTE) (he_decode title) →
  normalizeTitle title = he_decode title.
Proof.
  intros Hplain. pose proof (normalised_chars title) as Hall.
  revert Hplain Hall. generalize (normalizeTitle title) (he_decode title).
  intros out s Hplain Hall. induction Hall as [|c c' s out Hc Hall IH]; [done|].
  apply Forall_cons in Hplain as [(Hq & Hl & Hr) Hplain].
  f_equal; [|by apply IH].
  destruct Hc as [->|[? _]]; [|done]. unfold straighten. rewrite decide_False; tauto.
Qed.

(** *** More on the whole run *)

(** X13.  [main] never throws; it begins by reading the dataset file; and
    when an API call fails, that call is the last thing it does. *)
Theorem main_never_throws fuel w :
  (∀ e, outcome (main fuel w) ≠ Thrown e)
  ∧ (∃ later, trace (main fuel w) = ReadFile filePath :: later)
  ∧ (omap failure_of (trace (main fuel w)) = []
     ∨ ∃ before ev e, trace (main fuel w) = before ++ [ev]
                      ∧ failure_of ev = Some e ∧ omap failure_of before = []).
Proof.
  rewrite main_run. cbv zeta.
  assert (world (readCsvFile filePath w) = w
          ∧ trace (readCsvFile filePath w) = [ReadFile filePath]) as [-> ->]
    by (by rewrite readCsvFile_run).
  destruct (outcome (readCsvFile filePath w)) as [existingVideos|e|];
    cbn [outcome trace]; [|by eauto..].
  set (known := list_to_set (ID <$> existingVideos) : gset string).
  pose proof (getNewVideos_stops_at_failure fuel channelId known w) as Hget.
  unfold stops_at_failure in Hget.
  set (r2 := getNewVideos fuel channelId known w) in *.
  destruct (outcome r2) as [newVideos|e|].
  - pose proof (updateExistingVideos_stops_at_failure existingVideos (world r2)) as Hupd.
    unfold stops_at_failure in Hupd.
    set (r3 := updateExistingVideos existingVideos (world r2)) in *.
    destruct (outcome r3) as [updated|e|]; cbn [outcome trace].
    + split_and!; [done|by eauto|]. left.
      change (ReadFile filePath :: ?t) with ([ReadFile filePath] ++ t).
      by rewrite !omap_app, Hget, Hupd.
    + split_and!; [done|by eauto|]. right.
      destruct Hupd as (before & ev & -> & Hev & Hbefore).
      exists ([ReadFile filePath] ++ trace r2 ++ before), ev, e.
      split_and!; [by rewrite <-!app_assoc|done|].
      by rewrite !omap_app, Hget, Hbefore.
    + split_and!; [done|by eauto|]. left.
      change (ReadFile filePath :: ?t) with ([ReadFile filePath] ++ t).
      by rewrite !omap_app, Hget, Hupd.
  - cbn [outcome trace]. split_and!; [done|by eauto|]. right.
    destruct Hget as (before & ev & -> & Hev & Hbefore).
    exists ([ReadFile filePath] ++ before), ev, e.
    split_and!; [by rewrite <-!app_assoc|done|done].
  - cbn [outcome trace]. split_and!; [done|by eauto|]. by left.
Qed.

(** X14.  When all stages of [main] get through, [main] hands what
    [stringify] made of the processed records to [fs.writeFile] as its last
    call, and it returns whether the write succeeds or fails.  After a write
    that succeeds the dataset file holds that content, every other file is
    as before, and a following [readCsvFile] returns what [parse] makes of
    it.  A write that fails ends in the [catch] of [main]: nothing is
    reported to the caller, and the files are as before, but for what the
    failed write may have left of the dataset file. *)
Theorem main_saves_what_it_reconciled fuel w processed :
  outcome (reconcile fuel w) = Returned processed →
  outcome (main fuel w) = Returned ()
  ∧ trace (main fuel w)
    = trace (reconcile fuel w) ++ [WriteFile filePath (stringify processed)]
  ∧ (write_faults w !! filePath = None →
     files (world (main fuel w))
     = <[filePath := Readable (stringify processed)]> (files w)
     ∧ outcome (readCsvFile filePath (world (main fuel w)))
       = match parse (stringify processed) with
         | inl e => Thrown e
         | inr data => Returned data
         end)
  ∧ (∀ fault, write_faults w !! filePath = Some fault →
     files (world (main fuel w))
     = match left_behind fault with
       | Some partial => <[filePath := Readable partial]> (files w)
       | None => files w
       end).
Proof.
  intros Hrec. destruct (reconcile_no_write fuel w) as [_ Hfiles].
  pose proof (reconcile_write_faults fuel w) as Hfaults.
  rewrite readCsvFile_run, main_reconcile. cbv zeta. rewrite Hrec.
  cbn [outcome world trace]. unfold fs_writeFile. rewrite Hfaults.
  split; [done|]. split; [done|]. split.
  - intros ->. cbn [world files]. rewrite Hfiles, lookup_insert_eq. done.
  - intros fault ->. cbn [world files]. by rewrite Hfiles.
Qed.

(** X15.  With no dataset file and a listing of one page without items,
    [main] makes one [search.list] call and no [videos.list] call and saves
    the empty dataset. *)
Theorem empty_channel_writes_empty_dataset fuel w response :
  files w !! filePath = None →
  (search_list channelId None (api w)).1 = inr response →
  default [] (search_items response) = [] →
  truthy_string (nextPageToken response) = None →
  written (trace (main (S fuel) w)) = [stringify []]
  ∧ detail_requests (trace (main (S fuel) w)) = []
  ∧ length (search_calls (trace (main (S fuel) w))) = 1.
Proof.
  intros Hfile Hresp Hitems Htoken.
  rewrite main_run. cbv zeta. rewrite readCsvFile_run, Hfile. cbn [outcome world trace].
  rewrite getNewVideos_run. cbv zeta.
  rewrite search_pages_step. cbv zeta.
  change (list_to_set (ID <$> [])) with (∅ : gset string).
  rewrite Hresp, Hitems, Htoken. cbn [outcome world trace foldl length].
  rewrite decide_False by lia. cbn [outcome world trace].
  unfold updateExistingVideos. rewrite try_catch_rethrow.
  rewrite for_each_chunk_done by (simpl; lia). cbn [outcome world trace].
  done.
Qed.


(** X17.  A run that gets through makes [Math.ceil(new / 50)] plus
    [Math.ceil(existing / 50)] detail requests; the number [videoCalls] that
    line 190 computes for the log is never more than that and at most one
    less. *)
Theorem detail_calls_and_their_estimate fuel w existingVideos processed :
  outcome (readCsvFile filePath w) = Returned existingVideos →
  outcome (reconcile fuel w) = Returned processed →
  let existingCount := length existingVideos in
  let newCount := length processed - existingCount in
  let calls := length (detail_requests (trace (main fuel w))) in
  length processed = existingCount + newCount
  ∧ calls = ceil_div_50 newCount + ceil_div_50 existingCount
  ∧ videoCalls newCount existingCount ≤ calls ≤ videoCalls newCount existingCount + 1.
Proof.
  intros Hread Hrec. cbv zeta.
  rewrite main_reconcile. cbv zeta. rewrite Hrec. cbn [trace].
  revert Hrec. rewrite reconcile_run. cbv zeta. rewrite Hread.
  assert (detail_requests (trace (readCsvFile filePath w)) = []) as Hd1
    by (by rewrite readCsvFile_run).
  set (w1 := world (readCsvFile filePath w)).
  set (known := list_to_set (ID <$> existingVideos) : gset string).
  pose proof (getNewVideos_requests fuel channelId known w1) as Hget.
  set (r2 := getNewVideos fuel channelId known w1) in *.
  destruct (outcome r2) as [newVideos|e|]; [|done..].
  destruct (Hget newVideos eq_refl) as (_ & Hcount2 & _).
  pose proof (updateExistingVideos_requests existingVideos (world r2)) as Hupd.
  destruct (updateExistingVideos_spec existingVideos (world r2))
    as (_ & _ & _ & _ & _ & Hout3).
  set (r3 := updateExistingVideos existingVideos (world r2)) in *.
  cbn [outcome trace]. destruct (outcome r3) as [updated|e|]; [|done..].
  destruct (Hupd updated eq_refl) as (_ & Hcount3 & _).
  specialize (Hout3 updated eq_refl).
  intros [= <-].
  assert (length (processedVideos (allVideos updated newVideos))
          = length existingVideos + length newVideos) as Hlen.
  { unfold processedVideos, allVideos.
    by rewrite length_fmap, Array_sort_perm, length_app, Hout3, merge_all_length. }
  rewrite Hlen.
  replace (length existingVideos + length newVideos - length existingVideos)
    with (length newVideos) by lia.
  rewrite !detail_requests_app, Hd1, !length_app, Hcount2, Hcount3. simpl.
  rewrite Nat.add_0_r. split_and!; [done..| |]; unfold videoCalls;
    pose proof (ceil_div_50_sum (length newVideos) (length existingVideos)); lia.
Qed.

End Properties.

(** C6, amended.  Title normalisation is the composition of entity decoding,
    then replacement of the curly single quotes U+2018 and U+2019 by the
    ASCII apostrophe, then rewriting of every double-quoted non-empty text
    without double quote into the same text in single quotes, a double quote
    directly followed by another one being left as it is; and the title
    [He said &quot;Hi&rsquo;s&quot; fine] becomes [He said 'Hi's' fine]. *)
Theorem title_normalization :
  (∀ (nums : JSNumbers) (rt : JSRuntime) (title : jsstring),
     normalizeTitle title = requote_nonempty (spec_straighten (he_decode title)))
  ∧ normalizeTitle (rt:=Sample.runtime) (utf16 "He said &quot;Hi&rsquo;s&quot; fine")
    = utf16 "He said 'Hi's' fine".
Proof.
  split.
  - intros nums rt title. apply normalizeTitle_one_pass.
  - vm_compute. reflexivity.
Qed.

Import Sample.

(** * The claims on concrete runs *)

(** C6, counterexample.  In the title [Say &quot;&quot; twice] the two double
    quotes enclose the empty text.  Rewriting every text enclosed in double
    quotes makes two apostrophes of them; the pattern of line 173 asks for at
    least one character between the quotes, and the program leaves them. *)
Lemma empty_quotation_not_rewritten :
  let title := utf16 "Say &quot;&quot; twice" in
  he_decode title = utf16 "Say " ++ [DQUOTE; DQUOTE] ++ utf16 " twice"
  ∧ claimed_normalize title = utf16 "Say '' twice"
  ∧ normalizeTitle title = utf16 "Say " ++ [DQUOTE; DQUOTE] ++ utf16 " twice"
  ∧ normalizeTitle title ≠ claimed_normalize title.
Proof.
  intros title.
  assert (claimed_normalize title = utf16 "Say '' twice") as Hclaimed
    by (vm_compute; reflexivity).
  assert (normalizeTitle title = utf16 "Say " ++ [DQUOTE; DQUOTE] ++ utf16 " twice")
    as Hcode by (vm_compute; reflexivity).
  split; [vm_compute; reflexivity|]. split; [exact Hclaimed|]. split; [exact Hcode|].
  rewrite Hclaimed, Hcode. discriminate.
Qed.

(** C5 on the new-video remote: [c], which the remote does not know, comes back
    from the refresher as it was. *)
Lemma refresher_frame_witness :
  let videos := [video_a; video_c] in
  let w := empty_world new_video_api () in
  ∃ out, outcome (updateExistingVideos videos w) = Returned out
         ∧ length out = 2 ∧ out !! 1 = Some video_c.
Proof.
  intros videos w.
  eexists. split; [vm_compute; reflexivity|].
  edestruct (refresher_frame (yt:=new_video_api) videos w) as (Hlen & _ & Hframe);
    [vm_compute; reflexivity|].
  split; [exact Hlen|]. apply Hframe; [reflexivity|].
  intros item Hin. vm_compute in Hin. apply list_elem_of_singleton in Hin as ->. done.
Defined.

(** C2 on the new-video scenario: the counts of [a] become 7 and 1. *)
Lemma refresher_overwrites_counts_witness :
  let w := empty_world new_video_api () in
  ∃ out (v' : @VideoRecord numbers),
    outcome (updateExistingVideos [video_a] w) = Returned out
    ∧ out !! 0 = Some v'
    ∧ ViewCount v' = Some (Num (Some 7%Z)) ∧ LikeCount v' = Some (Num (Some 1%Z)).
Proof.
  intros w.
  destruct (refresher_overwrites_counts (yt:=new_video_api) [video_a] w
              [video_a_refreshed] 0 video_a [] (detailed "a" "PT1M" "7" "1") []
              {| viewCount := Some "7"; likeCount := Some "1" |})
    as (v' & Hv' & Hviews & Hlikes).
  - vm_compute; reflexivity.
  - reflexivity.
  - apply not_elem_of_nil.
  - vm_compute; reflexivity.
  - reflexivity.
  - reflexivity.
  - intros item' Hin. by apply elem_of_nil in Hin.
  - eexists. exists v'. split; [vm_compute; reflexivity|]. by split.
Defined.

(** C2, counterexample.  The provider returns the duration PT9M for [a]; the
    refresher overwrites the counts and keeps the stored duration PT1M. *)
Lemma refresher_keeps_duration :
  let r := updateExistingVideos [video_a] (empty_world longer_api ()) in
  detail_items (trace r) = [detailed "a" "PT9M" "7" "1"]
  ∧ outcome r = Returned [video_a_refreshed]
  ∧ Duration video_a_refreshed = "PT1M".
Proof. vm_compute. split_and!; reflexivity. Qed.

(** C10 on a remote whose detail items carry statistics only: the new record
    [b] keeps its empty duration and has no counts. *)
Lemma hydration_needs_contentDetails_witness :
  let r := getNewVideos 1 channelId ∅ (empty_world statistics_only_api ()) in
  ∃ out v, outcome r = Returned out ∧ v ∈ out ∧ ID v = "b"
           ∧ Duration v = EmptyString ∧ ViewCount v = None ∧ LikeCount v = None.
Proof.
  intros r. eexists. eexists. split; [vm_compute; reflexivity|].
  split; [left|]. split; [reflexivity|].
  eapply (hydration_needs_contentDetails (yt:=statistics_only_api) 1 channelId ∅
            (empty_world statistics_only_api ())).
  - vm_compute; reflexivity.
  - left.
  - intros item Hin _. vm_compute in Hin.
    repeat (apply elem_of_cons in Hin as [->|Hin]; [reflexivity|]).
    by apply elem_of_nil in Hin.
Defined.

(** C7 on the new-video remote with [a] and [b] both known: the listing
    shows them, nothing is new, and no detail request is made. *)
Lemma detail_requests_bounded_witness :
  let known : gset string := {[ "a"; "b" ]} in
  let r := getNewVideos 1 channelId known (empty_world new_video_api ()) in
  listed_ids (listed_items (trace r)) = ["b"; "a"] ∧ detail_requests (trace r) = [].
Proof.
  intros known r. split; [vm_compute; reflexivity|].
  apply (detail_requests_bounded (yt:=new_video_api) 1 channelId known []
           (empty_world new_video_api ())).
  vm_compute; reflexivity.
Defined.

(** C8: a missing file gives the empty dataset, an unreadable one throws. *)
Lemma readCsvFile_tolerates_missing_file_witness :
  outcome (readCsvFile filePath (empty_world new_video_api ())) = Returned []
  ∧ outcome (readCsvFile filePath
               {| api := () : ApiState (YoutubeApi:=new_video_api);
                  files := {[ filePath := Faulty permission_error ]};
                  write_faults := ∅ |})
    = Thrown permission_error.
Proof.
  split.
  - apply (readCsvFile_tolerates_missing_file (yt:=new_video_api)). reflexivity.
  - apply (readCsvFile_tolerates_missing_file (yt:=new_video_api)).
    + vm_compute; reflexivity.
    + discriminate.
Defined.

(** C9 on a remote whose listing fails: nothing is written and the stored
    dataset is as it was. *)
Lemma no_write_after_failure_witness :
  let w := stored failing_api () [video_a] in
  written (trace (main 1 w)) = [] ∧ files (world (main 1 w)) = files w.
Proof.
  intros w. apply (no_write_after_failure (yt:=failing_api) 1 w network_error).
  right. exists [video_a]. split; [vm_compute; reflexivity|].
  left. vm_compute; reflexivity.
Defined.

(** C1 on the new-video scenario: the run writes [b] and [a], once each. *)
Lemma output_identifiers_unique_witness :
  let w := stored new_video_api () [video_a] in
  let processed := [video_b; video_a_refreshed] in
  written (trace (main 1 w)) = [stringify processed]
  ∧ ID <$> processed = ["b"; "a"] ∧ NoDup (ID <$> processed).
Proof.
  intros w processed.
  destruct (output_identifiers_unique (yt:=new_video_api) 1 w [video_a] processed)
    as (Hwritten & Hnodup & _).
  - vm_compute; reflexivity.
  - vm_compute; reflexivity.
  - apply NoDup_singleton.
  - vm_compute. apply NoDup_singleton.
  - split; [exact Hwritten|]. split; [reflexivity|exact Hnodup].
Defined.

(** C1, counterexample.  The local dataset holds [a] alone; the listing shows
    [x] on both of its pages; the dataset written names [x] twice. *)
Lemma listing_twice_duplicates_output :
  let w := stored twice_api () [video_a] in
  NoDup (ID <$> [video_a])
  ∧ ∃ processed, outcome (reconcile 2 w) = Returned processed
                 ∧ written (trace (main 2 w)) = [stringify processed]
                 ∧ ID <$> processed = ["x"; "x"; "a"]
                 ∧ ¬ NoDup (ID <$> processed).
Proof.
  intros w. split; [apply NoDup_singleton|].
  eexists. split; [vm_compute; reflexivity|].
  split; [vm_compute; reflexivity|]. split; [reflexivity|].
  intros [Hx _]%NoDup_cons. apply Hx. left.
Qed.

(** C4 on the new-video scenario: the newer [b] comes first. *)
Lemma merge_sorted_and_stable_witness :
  allVideos [video_a] [video_b] = [video_b; video_a]
  ∧ non_increasing (allVideos [video_a] [video_b]).
Proof.
  split; [vm_compute; reflexivity|].
  apply merge_sorted_and_stable.
  repeat (constructor; [vm_compute; eauto|]). constructor.
Defined.

(** C4, counterexample.  A new record without publication date stands between
    the existing record [a] of 2020 and the new record [b] of 2021: every
    comparison with it is [NaN], nothing moves, and [a] stays before [b]. *)
Lemma undated_record_breaks_order :
  allVideos [video_a] [undated; video_b] = [video_a; undated; video_b]
  ∧ ¬ non_increasing (allVideos [video_a] [undated; video_b]).
Proof.
  split; [vm_compute; reflexivity|]. intros Hsorted.
  specialize (Hsorted 0 2 video_a video_b 1577836800000%Z 1609459200000%Z).
  assert (1609459200000 ≤ 1577836800000)%Z; [|lia].
  apply Hsorted; [lia|vm_compute; reflexivity..].
Qed.

(** C3 on the new-video scenario with a record [c] that the remote does not
    know: the first run adds [b], refreshes [a] and keeps [c] with the counts
    it loaded; the second run reads all counts as strings, refreshes [b] and
    [a] to the same numbers, and writes what the first wrote. *)
Lemma second_run_writes_the_same_witness :
  let w := stored new_video_api () [video_a; video_c] in
  let dataset := [video_b; video_a_refreshed; video_c] in
  written (trace (main 1 w)) = [stringify dataset]
  ∧ written (trace (main 1 (world (main 1 w)))) = [stringify dataset].
Proof.
  intros w dataset.
  eapply (second_run_writes_the_same (yt:=new_video_api) listing1 catalog1).
  - split_and!.
    + reflexivity.
    + intros ids st. eexists. split; reflexivity.
    + intros i item. unfold catalog1. repeat case_decide; intros [= <-]; by subst.
  - intros i item. unfold catalog1. repeat case_decide; intros [= <-]; eauto.
  - vm_compute; reflexivity.
  - reflexivity.
  - vm_compute; reflexivity.
  - constructor; [|constructor; [|constructor; [|constructor]]].
    + split_and!; [reflexivity..|]. intros Hnone. by specialize (Hnone _ eq_refl).
    + split_and!; [reflexivity..|]. intros Hnone. by specialize (Hnone _ eq_refl).
    + split_and!; [reflexivity..|]. intros _. split; reflexivity.
  - apply (bool_decide_unpack (NoDup (ID <$> dataset))). vm_compute. exact I.
  - repeat (constructor; [vm_compute; eauto|]). constructor.
  - repeat (constructor; [vm_compute; reflexivity|]). constructor.
Defined.

(** C3, counterexample.  Three remotes that do not change, each run twice
    from an empty directory.

    The first lists one video whose title is an escaped ampersand, escaped
    once more by the API: the first run decodes it once and saves it, the
    second run decodes what it loaded once more and saves another title.

    The second lists [b] and [a] and returns no details for them: the first
    run saves records without counts, as empty cells; the second run loads
    the empty string for each count and saves it as a string, between
    quotes.

    The third returns details that carry statistics and no contentDetails:
    the first run does not hydrate the new records and saves them without
    counts; the second run, for which they are existing records, refreshes
    them and saves the numbers. *)
Lemma second_run_writes_another_file :
  (let run1 := main 1 (empty_world amp_api ()) in
   let run2 := main 1 (world run1) in
   titles (written (trace run1)) = [[utf16 "A &amp; B"]]
   ∧ titles (written (trace run2)) = [[utf16 "A & B"]]
   ∧ written (trace run1) ≠ written (trace run2))
  ∧ (let run1 := main 1 (empty_world unanswered_api ()) in
     let run2 := main 1 (world run1) in
     counts (written (trace run1)) = [[(Blank, Blank); (Blank, Blank)]]
     ∧ counts (written (trace run2)) = [[(Quoted [], Quoted []); (Quoted [], Quoted [])]]
     ∧ written (trace run1) ≠ written (trace run2))
  ∧ (let run1 := main 1 (empty_world statistics_only_api ()) in
     let run2 := main 1 (world run1) in
     counts (written (trace run1)) = [[(Blank, Blank); (Blank, Blank)]]
     ∧ counts (written (trace run2))
       = [[(Bare (utf16 "10"), Bare (utf16 "2")); (Bare (utf16 "10"), Bare (utf16 "2"))]]
     ∧ written (trace run1) ≠ written (trace run2)).
Proof.
  split_and!.
  - intros run1 run2.
    assert (titles (written (trace run1)) = [[utf16 "A &amp; B"]]) as H1
      by (vm_compute; reflexivity).
    assert (titles (written (trace run2)) = [[utf16 "A & B"]]) as H2
      by (vm_compute; reflexivity).
    split_and!; [done..|]. intros Heq. rewrite Heq, H2 in H1. discriminate.
  - intros run1 run2.
    assert (counts (written (trace run1)) = [[(Blank, Blank); (Blank, Blank)]]) as H1
      by (vm_compute; reflexivity).
    assert (counts (written (trace run2))
            = [[(Quoted [], Quoted []); (Quoted [], Quoted [])]]) as H2
      by (vm_compute; reflexivity).
    split_and!; [done..|]. intros Heq. rewrite Heq, H2 in H1. discriminate.
  - intros run1 run2.
    assert (counts (written (trace run1)) = [[(Blank, Blank); (Blank, Blank)]]) as H1
      by (vm_compute; reflexivity).
    assert (counts (written (trace run2))
            = [[(Bare (utf16 "10"), Bare (utf16 "2")); (Bare (utf16 "10"), Bare (utf16 "2"))]])
      as H2 by (vm_compute; reflexivity).
    split_and!; [done..|]. intros Heq. rewrite Heq, H2 in H1. discriminate.
Qed.

(** * The further properties on concrete runs *)

(** X1 on the new-video remote with [a] known: [b] is returned, and [b] is
    neither known nor empty. *)
Lemma getNewVideos_excludes_known_witness :
  let known : gset string := {[ "a" ]} in
  let r := getNewVideos 1 channelId known (empty_world new_video_api ()) in
  outcome r = Returned [video_b] ∧ (ID video_b ∉ known) ∧ ID video_b ≠ EmptyString.
Proof.
  intros known r. split; [vm_compute; reflexivity|].
  apply (getNewVideos_excludes_known (yt:=new_video_api) 1 channelId known
           (empty_world new_video_api ()) [video_b] video_b).
  - vm_compute; reflexivity.
  - left.
Defined.

(** X2 on the same run: the one record has the fields of the listed [b]. *)
Lemma getNewVideos_takes_listed_items_witness :
  let known : gset string := {[ "a" ]} in
  let r := getNewVideos 1 channelId known (empty_world new_video_api ()) in
  listed_fields <$> [video_b]
  = omap (taken_from known) (listed_items (trace r))
  ∧ omap (taken_from known) (listed_items (trace r))
    = [("b", utf16 "Second", "2021-01-01T00:00:00Z")].
Proof.
  intros known r. split; [|vm_compute; reflexivity].
  apply (getNewVideos_takes_listed_items (yt:=new_video_api) 1 channelId known
           (empty_world new_video_api ()) [video_b]).
  vm_compute; reflexivity.
Defined.

(** X3 on the listing of two pages: two requests, the second with the token
    of the first response, the last response without token. *)
Lemma getNewVideos_follows_tokens_witness :
  let r := getNewVideos 2 channelId ∅ (empty_world twice_api ()) in
  (snd ∘ fst) <$> search_calls (trace r) = [None; Some "page2"]
  ∧ ∃ calls tok response,
      search_calls (trace r) = calls ++ [(channelId, tok, inr response)]
      ∧ truthy_string (nextPageToken response) = None.
Proof.
  intros r. split; [vm_compute; reflexivity|].
  eapply (getNewVideos_follows_tokens (yt:=twice_api) 2 channelId ∅
            (empty_world twice_api ())).
  vm_compute; reflexivity.
Defined.

(** X4 on the new-video remote: [b] gets the duration and the counts of its
    detail item. *)
Lemma hydration_fills_record_witness :
  let known : gset string := {[ "a" ]} in
  let r := getNewVideos 1 channelId known (empty_world new_video_api ()) in
  outcome r = Returned [video_b]
  ∧ Duration video_b = "PT2M"
  ∧ ViewCount video_b = Some (Num (Some 10%Z))
  ∧ LikeCount video_b = Some (Num (Some 2%Z)).
Proof.
  intros known r. split; [vm_compute; reflexivity|].
  refine (hydration_fills_record (yt:=new_video_api) 1 channelId known
            (empty_world new_video_api ()) [video_b] 0 video_b
            [] (detailed "b" "PT2M" "10" "2") [] {| duration := Some "PT2M" |}
            _ _ _ _ _ _ _).
  - vm_compute; reflexivity.
  - reflexivity.
  - apply not_elem_of_nil.
  - vm_compute; reflexivity.
  - reflexivity.
  - reflexivity.
  - intros item' Hin. by apply elem_of_nil in Hin.
Defined.

(** X5 on a remote that reports another duration for [a]: the record keeps
    its own. *)
Lemma refresher_changes_counts_only_witness :
  let r := updateExistingVideos [video_a] (empty_world longer_api ()) in
  ∃ v', outcome r = Returned [v']
        ∧ ID v' = "a" ∧ Title v' = utf16 "First"
        ∧ Published_At v' = "2020-01-01T00:00:00Z" ∧ Duration v' = "PT1M".
Proof.
  intros r.
  destruct (refresher_changes_counts_only (yt:=longer_api) [video_a]
              (empty_world longer_api ()) [video_a_refreshed] 0 video_a)
    as (v' & Hv' & Hfields); [vm_compute; reflexivity|reflexivity|].
  injection Hv' as <-. exists video_a_refreshed.
  split; [vm_compute; reflexivity|exact Hfields].
Defined.

(** X6 on a local dataset of 51 records: two requests, of 50 and of 1
    identifiers. *)
Lemma detail_requests_cover_the_records_witness :
  let r := updateExistingVideos fifty_one (empty_world longer_api ()) in
  let requests := detail_requests (trace r) in
  length <$> requests = [50; 1]
  ∧ mjoin requests = ID <$> fifty_one
  ∧ length requests = ceil_div_50 (length fifty_one).
Proof.
  intros r requests. split; [vm_compute; reflexivity|].
  destruct (detail_requests_cover_the_records (yt:=longer_api) 1 channelId ∅ fifty_one
              (empty_world longer_api ())) as [Hupd _].
  edestruct Hupd as (Hjoin & Hcount & _); [vm_compute; reflexivity|].
  split; [exact Hjoin|exact Hcount].
Defined.

(** X9 on the records of the new-video scenario: [b] and [a], saved in this
    order, are left in it by the next sort. *)
Lemma saved_order_is_kept_witness :
  processedVideos (allVideos [video_a_refreshed] [video_b]) = [video_b; video_a_refreshed]
  ∧ allVideos [video_b; video_a_refreshed] [] = [video_b; video_a_refreshed].
Proof.
  assert (processedVideos (allVideos [video_a_refreshed] [video_b])
          = [video_b; video_a_refreshed]) as Hsaved by (vm_compute; reflexivity).
  split; [exact Hsaved|]. rewrite <-Hsaved.
  apply (saved_order_is_kept (rt:=runtime) [video_a_refreshed] [video_b]).
  repeat (constructor; [vm_compute; eauto|]). constructor.
Defined.

(** X12 on the title [First]. *)
Lemma normalizeTitle_plain_witness :
  normalizeTitle (utf16 "First") = utf16 "First".
Proof.
  apply (normalizeTitle_plain (rt:=runtime) (utf16 "First")).
  vm_compute. repeat (constructor; [split_and!; discriminate|]). constructor.
Defined.

(** X14 on the new-video scenario: the file then holds [b] and [a].  With a
    dataset file that cannot be opened for writing, [main] returns all the
    same, and the file is as it was. *)
Lemma main_saves_what_it_reconciled_witness :
  let w := stored new_video_api () [video_a] in
  let processed := [video_b; video_a_refreshed] in
  (outcome (main 1 w) = Returned ()
   ∧ files (world (main 1 w)) !! filePath = Some (Readable (stringify processed)))
  ∧ (outcome (main 1 (read_only new_video_api w)) = Returned ()
     ∧ files (world (main 1 (read_only new_video_api w))) = files w).
Proof.
  intros w processed. split.
  - destruct (main_saves_what_it_reconciled (yt:=new_video_api) 1 w processed)
      as (Hret & _ & Hsaved & _); [vm_compute; reflexivity|].
    split; [exact Hret|].
    destruct Hsaved as [Hfiles _]; [reflexivity|].
    rewrite Hfiles. apply lookup_insert_eq.
  - destruct (main_saves_what_it_reconciled (yt:=new_video_api) 1
                (read_only new_video_api w) processed)
      as (Hret & _ & _ & Hfailed); [vm_compute; reflexivity|].
    split; [exact Hret|].
    apply (Hfailed {| write_error := permission_error; left_behind := None |}).
    apply lookup_singleton_eq.
Defined.

(** X15 on a channel without videos and no dataset file. *)
Lemma empty_channel_writes_empty_dataset_witness :
  let w := empty_world empty_api () in
  written (trace (main 1 w)) = [stringify []]
  ∧ detail_requests (trace (main 1 w)) = []
  ∧ length (search_calls (trace (main 1 w))) = 1.
Proof.
  intros w.
  apply (empty_channel_writes_empty_dataset (yt:=empty_api) 0 w
           {| search_items := Some []; nextPageToken := None |});
    reflexivity.
Defined.


(** X17 on the new-video scenario: one request for the new record and one
    for the existing one, where line 190 counts one. *)
Lemma detail_calls_and_their_estimate_witness :
  let w := stored new_video_api () [video_a] in
  length (detail_requests (trace (main 1 w))) = 2
  ∧ videoCalls 1 1 = 1
  ∧ videoCalls 1 1 ≤ length (detail_requests (trace (main 1 w))) ≤ videoCalls 1 1 + 1.
Proof.
  intros w. split; [vm_compute; reflexivity|]. split; [reflexivity|].
  apply (detail_calls_and_their_estimate (yt:=new_video_api) 1 w [video_a]
           [video_b; video_a_refreshed]); vm_compute; reflexivity.
Defined.
